(** * Marvin: [marvin::math] (include/marvin/math/marvin_Math.h)

    A shallow embedding of the header's templates.  Every function of the
    header is a template over [FloatType T]; the embedding is generic over an
    interface with exactly the operations the header applies to [T], and is
    instantiated at

    - [R], exact real arithmetic;
    - [spec_float], IEEE-754 binary arithmetic as the standard library's
      [SpecFloat] specifies it, for any format; [binary64] is [double] and
      [binary32] is [float].

    The two view functions work on span descriptors (pointer, count) over a
    byte-addressed memory of [T] objects. *)

From Stdlib Require Import ZArith List Bool Lia Lra Reals.
From Stdlib Require Import Floats.SpecFloat.
Import ListNotations.

Set Implicit Arguments.

(** ** The element type *)

(** What the header needs of a [FloatType T]: the four operations,
    [std::sqrt], [std::abs], [<], and the three [static_cast<T>]s it spells
    out ([0], [1.0], [1e-6]) together with the cast of a [std::size_t]. *)
Class FloatType (T : Type) := {
  fzero : T;                  (* static_cast<T>(0)   *)
  fone : T;                   (* static_cast<T>(1.0) *)
  fepsilon : T;               (* static_cast<T>(1e-6) *)
  of_size : Z -> T;           (* static_cast<T>(data.size()) *)
  fadd : T -> T -> T;
  fsub : T -> T -> T;
  fmul : T -> T -> T;
  fdiv : T -> T -> T;
  fsqrt : T -> T;             (* std::sqrt *)
  fabs : T -> T;              (* std::abs  *)
  flt : T -> T -> bool        (* operator< *)
}.

(** [std::sin] and [std::numbers::pi_v<T>], used by [sinc] only. *)
Class FloatTrig (T : Type) := {
  fsin : T -> T;
  fpi : T
}.

(** Both IEEE arithmetic and exact arithmetic have commutative [+] and [*];
    neither associativity nor distributivity is asked for. *)
Class FloatComm (T : Type) `{FloatType T} : Prop := {
  fadd_comm : forall a b : T, fadd a b = fadd b a;
  fmul_comm : forall a b : T, fmul a b = fmul b a
}.
Arguments FloatComm T {_}.

Declare Scope float_scope.
Delimit Scope float_scope with fl.
Infix "+" := fadd : float_scope.
Infix "-" := fsub : float_scope.
Infix "*" := fmul : float_scope.
Infix "/" := fdiv : float_scope.
Infix "<?" := flt : float_scope.

(** [std::size_t] is 64 bits wide. *)
Definition size_modulus : Z := (2 ^ 64)%Z.

(** ** Scalar and aggregate math *)

Section Math.
Context {T : Type} `{FT : FloatType T}.
Local Open Scope float_scope.

(** Modelled from the spec: [marvin::utils::Range<T>] (marvin_Range.h is
    not part of the sources at hand), "a simple min/max pair": the two
    public fields the header reads. *)
Record Range := { min : T; max : T }.

Definition lerp (start end_ ratio : T) : T :=
  let interpolated := start + (end_ - start) * ratio in
  interpolated.

(** [remap(T x, T newMin, T newMax)] *)
Definition remap (x newMin newMax : T) : T :=
  let rescaled := (x * (newMax - newMin)) + newMin in
  rescaled.

(** [remap(T x, T srcMin, T srcMax, T newMin, T newMax)] *)
Definition remap5 (x srcMin srcMax newMin newMax : T) : T :=
  let normalised := (x - srcMin) / (srcMax - srcMin) in
  remap normalised newMin newMax.

(** [remap(T x, Range<T> srcRange, Range<T> newRange)] *)
Definition remap_ranges (x : T) (srcRange newRange : Range) : T :=
  remap5 x (min srcRange) (max srcRange) (min newRange) (max newRange).

(** [remap(T x, Range<T> newRange)] *)
Definition remap_range (x : T) (newRange : Range) : T :=
  remap x (min newRange) (max newRange).

(** A [std::span<T>] that is only read is the list of its elements. *)
Definition empty {A : Type} (data : list A) : bool :=
  match data with [] => true | _ :: _ => false end.

Definition size {A : Type} (data : list A) : Z := Z.of_nat (length data).

(** [std::accumulate(first, last, init, op)] *)
Definition accumulate {A B : Type} (data : list A) (init : B)
    (op : B -> A -> B) : B :=
  fold_left op data init.

(** [rms(std::span<T> data)] *)
Definition rms (data : list T) : T :=
  if empty data then fzero
  else
    let sum := accumulate data fzero (fun acc next => acc + next * next) in
    let mean := sum / of_size (size data) in
    fsqrt mean.

(** The lambda [getChannelMean] of the multichannel [rms]. *)
Definition getChannelMean (channel : list T) : T :=
  if empty channel then fzero
  else
    let sum := accumulate channel fzero (fun acc next => acc + next * next) in
    sum / of_size (size channel).

(** [rms(std::span<std::span<T>> data)] *)
Definition rms_channels (data : list (list T)) : T :=
  if empty data then fzero
  else
    let sum := accumulate data fzero
                 (fun acc next => acc + getChannelMean next) in
    let mean := sum / of_size (size data) in
    fsqrt mean.

Definition sinc `{FloatTrig T} (x : T) : T :=
  let epsilon := fepsilon in
  if fabs x <? epsilon then fone
  else
    let xPi := x * fpi in
    fsin xPi / xPi.

End Math.

Arguments Range T : clear implicits.

(** ** Layout reinterpretation *)

Module View.
Section View.
Local Open Scope Z_scope.

Variable T : Type.

(** [sizeof(T)] in bytes; [sizeof(std::complex<T>)] is twice that, the real
    part first, with no padding. *)
Variable sizeof_T : Z.

(** A byte-addressed memory: the [T] object that starts at each address. *)
Definition memory := Z -> T.

Inductive elem := Real | Complex.

Definition sizeof (k : elem) : Z :=
  match k with Real => sizeof_T | Complex => 2 * sizeof_T end.

(** [std::span<E>] with a dynamic extent: a pointer and a [std::size_t]
    count.  The element type is a phantom index of the descriptor. *)
Record span (k : elem) := { data : Z; size : Z }.

(** Arithmetic on [std::size_t] wraps. *)
Definition wrap (n : Z) : Z := n mod size_modulus.

(** Element [i] of a view of reals, [data()[i]]. *)
Definition real_at (m : memory) (s : span Real) (i : Z) : T :=
  m (data s + i * sizeof Real).

(** Element [i] of a view of complexes: its real and imaginary parts. *)
Definition complex_at (m : memory) (s : span Complex) (i : Z) : T * T :=
  (m (data s + i * sizeof Complex),
   m (data s + i * sizeof Complex + sizeof_T)).

Definition indices (n : Z) : list Z :=
  map Z.of_nat (seq 0 (Z.to_nat n)).

Definition read_real (m : memory) (s : span Real) : list T :=
  map (real_at m s) (indices (size s)).

Definition read_complex (m : memory) (s : span Complex) : list (T * T) :=
  map (complex_at m s) (indices (size s)).

(** [interleavedToComplexView].  [assert] aborts the call when its
    condition fails, unless the build defines [NDEBUG], which removes it:
    [None] is the abort. *)
Definition interleavedToComplexView (NDEBUG : bool) (d : span Real)
    : option (span Complex) :=
  if NDEBUG || (size d mod 2 =? 0) then
    let complexView := {| data := data d; size := size d / 2 |} in
    Some complexView
  else None.

(** [complexViewToInterleaved] *)
Definition complexViewToInterleaved (d : span Complex) : span Real :=
  let interleavedView := {| data := data d; size := wrap (size d * 2) |} in
  interleavedView.

(** A descriptor of a buffer that exists: a count that is a [std::size_t]
    and elements that lie inside the address space. *)
Definition in_memory (k : elem) (s : span k) : Prop :=
  0 <= data s /\ 0 <= size s < size_modulus /\
  data s + size s * sizeof k < size_modulus.

End View.
End View.

(** ** The two arithmetics *)

(** *** Exact arithmetic *)

Definition Rltb (a b : R) : bool := if Rlt_dec a b then true else false.

#[export] Instance R_FloatType : FloatType R := {|
  fzero := 0%R;
  fone := 1%R;
  fepsilon := (1 / 1000000)%R;
  of_size := IZR;
  fadd := Rplus;
  fsub := Rminus;
  fmul := Rmult;
  fdiv := Rdiv;
  fsqrt := sqrt;
  fabs := Rabs;
  flt := Rltb
|}.

#[export] Instance R_FloatTrig : FloatTrig R := {| fsin := sin; fpi := PI |}.

(** *** IEEE-754 binary arithmetic, round to nearest even *)

Section IEEE.
Local Open Scope Z_scope.

(** The format: [prec] bits of significand, infinities at exponent
    [emax]. *)
Variables prec emax : Z.

(** Conversion of an integer, as [static_cast<T>] does it. *)
Definition of_Z (n : Z) : spec_float := binary_normalize prec emax n 0 false.

(** The literal [1e-6] is a [double]: 4722366482869645 * 2^-72.  The cast
    to [T] rounds it into the format. *)
Definition double_1em6 : spec_float :=
  S754_finite false 4722366482869645 (-72).

Definition cast_double (d : spec_float) : spec_float :=
  match d with
  | S754_finite s m e => binary_normalize prec emax (cond_Zopp s (Zpos m)) e s
  | _ => d
  end.

Definition IEEE_FloatType : FloatType spec_float := {|
  fzero := S754_zero false;
  fone := of_Z 1;
  fepsilon := cast_double double_1em6;
  of_size := of_Z;
  fadd := SFadd prec emax;
  fsub := SFsub prec emax;
  fmul := SFmul prec emax;
  fdiv := SFdiv prec emax;
  fsqrt := SFsqrt prec emax;
  fabs := SFabs;
  flt := SFltb
|}.

Definition is_nan (x : spec_float) : bool :=
  match x with S754_nan => true | _ => false end.

(** [0 <= x]: false on NaN, true on both zeros. *)
Definition nonneg (x : spec_float) : bool := SFleb (S754_zero false) x.

(** The sign of a value that is not NaN. *)
Definition signed (s : bool) (x : spec_float) : Prop :=
  match x with
  | S754_zero s' | S754_infinity s' | S754_finite s' _ _ => s' = s
  | S754_nan => False
  end.

End IEEE.

(** [double] and [float]. *)
Definition binary64 : FloatType spec_float := IEEE_FloatType 53 1024.
Definition binary32 : FloatType spec_float := IEEE_FloatType 24 128.

Definition b64 (n : Z) : spec_float := of_Z 53 1024 n.

(** The largest finite [double]. *)
Definition DBL_MAX : spec_float :=
  S754_finite false (2 ^ 53 - 1) (1024 - 53).

(** ** Reference formulations *)

Section Reference.
Context {T : Type} `{FT : FloatType T}.
Local Open Scope float_scope.

(** The partial sums [s_0 = 0], [s_(k+1) = s_k + g x_k]: a sum taken in
    [T], left to right in element order. *)
Fixpoint sum_upto {A : Type} (g : A -> T) (d : A) (data : list A)
    (n : nat) : T :=
  match n with
  | O => fzero
  | S k => sum_upto g d data k + g (nth k data d)
  end.

Definition square (x : T) : T := x * x.

(** [(x_1^2 + ... + x_n^2) / n] in [T], and 0 for no element. *)
Definition mean_square (channel : list T) : T :=
  match channel with
  | [] => fzero
  | _ :: _ =>
      sum_upto square fzero channel (length channel) / of_size (size channel)
  end.

(** The average of the values [g x], in [T]. *)
Definition average_of {A : Type} (g : A -> T) (d : A) (data : list A) : T :=
  sum_upto g d data (length data) / of_size (size data).

End Reference.

(** Over the reals sums do not depend on the order. *)
Definition Rsum (l : list R) : R := fold_right Rplus 0%R l.

Definition Rmean (l : list R) : R := (Rsum l / INR (length l))%R.

Definition Rmean_square (l : list R) : R :=
  match l with
  | [] => 0%R
  | _ :: _ => Rmean (map (fun x => (x * x)%R) l)
  end.

(** *** Inputs of the IEEE instances *)

Section IEEEInputs.
Local Open Scope Z_scope.

(** [std::size_t] is 64 bits wide: a span has fewer than [2^64]
    elements. *)
Definition fits_size_t {A : Type} (data : list A) : bool :=
  size data <? size_modulus.

Definition nan_free (data : list spec_float) : bool :=
  forallb (fun x => negb (is_nan x)) data.

Definition channels_ok (data : list (list spec_float)) : bool :=
  fits_size_t data && forallb (fun c => fits_size_t c && nan_free c) data.

(** Formats in which every [std::size_t] rounds to a finite number:
    [float], [double] and the wider ones. *)
Definition supported_format (prec emax : Z) : bool :=
  (0 <? prec) && (prec <=? emax) && (65 <=? emax).

End IEEEInputs.

(** *** Finite values *)

(** A zero or a finite number: neither an infinity nor NaN. *)
Definition is_finite (x : spec_float) : bool :=
  match x with
  | S754_zero _ | S754_finite _ _ _ => true
  | S754_infinity _ | S754_nan => false
  end.

Definition is_infinity (x : spec_float) : bool :=
  match x with S754_infinity _ => true | _ => false end.

(** *** Writing through a view *)

Section ViewStore.
Import View.
Local Open Scope Z_scope.
Variable T : Type.
Variable sizeof_T : Z.

(** The memory after the [T] object at address [a] is assigned [v]. *)
Definition store (m : memory T) (a : Z) (v : T) : memory T :=
  fun a' => if a' =? a then v else m a'.

(** [view[i] = v] through a view of reals. *)
Definition write_real (m : memory T) (s : span Real) (i : Z) (v : T)
    : memory T :=
  store m (data s + i * sizeof sizeof_T Real) v.

(** [view[i] = z] through a view of complexes: the real part, then the
    imaginary part. *)
Definition write_complex (m : memory T) (s : span Complex) (i : Z)
    (z : T * T) : memory T :=
  store (store m (data s + i * sizeof sizeof_T Complex) (fst z))
        (data s + i * sizeof sizeof_T Complex + sizeof_T) (snd z).

End ViewStore.

Definition is_zero (x : spec_float) : bool :=
  match x with S754_zero _ => true | _ => false end.

(** *** The real value of a floating-point number *)

Definition pow2 (e : Z) : R := powerRZ 2 e.

Definition cond_Ropp (s : bool) (r : R) : R := if s then (- r)%R else r.

(** The real number a finite float or a zero stands for; 0 for the rest. *)
Definition B2R (x : spec_float) : R :=
  match x with
  | S754_finite s m e => cond_Ropp s (IZR (Zpos m) * pow2 e)
  | _ => 0%R
  end.

(** Where a real [t] lies in [[m, m + 1)]: on [m], below, at or above the
    middle.  This is what a [location] records. *)
Definition located (t : R) (m : Z) (l : location) : Prop :=
  match l with
  | loc_Exact => t = IZR m
  | loc_Inexact Lt => (IZR m < t < IZR m + / 2)%R
  | loc_Inexact Eq => t = (IZR m + / 2)%R
  | loc_Inexact Gt => (IZR m + / 2 < t < IZR m + 1)%R
  end.

(** A number of the format: a zero, or a finite float with a canonical
    significand and an exponent in range. *)
Definition representable (prec emax : Z) (x : spec_float) : bool :=
  is_finite x && valid_binary prec emax x.

(** * Properties *)

(** ** Accumulation *)

Section AccumulateFacts.
Context {T : Type} `{FT : FloatType T}.
Local Open Scope float_scope.

Lemma sum_upto_app {A : Type} (g : A -> T) (d : A) (l l' : list A) :
  forall n, (n <= length l)%nat ->
  sum_upto g d (l ++ l') n = sum_upto g d l n.
Proof.
  induction n as [|n IH]; intros Hn; simpl.
  - reflexivity.
  - rewrite IH by lia. rewrite app_nth1 by lia. reflexivity.
Qed.

(** [std::accumulate] from [0] with [acc + g(next)] takes the partial sums
    in element order. *)
Lemma accumulate_sum_upto {A : Type} (g : A -> T) (d : A) (data : list A) :
  accumulate data fzero (fun acc next => acc + g next)
  = sum_upto g d data (length data).
Proof.
  unfold accumulate.
  induction data as [|x l IH] using rev_ind.
  - reflexivity.
  - rewrite fold_left_app, IH. simpl.
    rewrite length_app. simpl. rewrite Nat.add_1_r. simpl.
    rewrite sum_upto_app by lia.
    rewrite app_nth2 by lia. rewrite Nat.sub_diag. reflexivity.
Qed.

Lemma getChannelMean_mean_square (channel : list T) :
  getChannelMean channel = mean_square channel.
Proof.
  destruct channel as [|x l]; [reflexivity|].
  unfold getChannelMean, mean_square. cbn [empty].
  now rewrite (accumulate_sum_upto (fun next => next * next) fzero).
Qed.

Lemma rms_in_order (x : T) (xs : list T) :
  rms (x :: xs) = fsqrt (mean_square (x :: xs)).
Proof.
  rewrite <- getChannelMean_mean_square. reflexivity.
Qed.

Lemma rms_channels_in_order (c : list T) (cs : list (list T)) :
  rms_channels (c :: cs) = fsqrt (average_of mean_square [] (c :: cs)).
Proof.
  unfold rms_channels, average_of. cbn [empty].
  rewrite (accumulate_sum_upto getChannelMean []).
  do 2 f_equal.
  generalize (length (c :: cs)). induction n as [|n IH]; simpl.
  - reflexivity.
  - now rewrite IH, getChannelMean_mean_square.
Qed.

End AccumulateFacts.

(** Over the reals the accumulator can be pulled out of the fold. *)
Lemma accumulate_Rsum {A : Type} (g : A -> R) (data : list A) (a : R) :
  accumulate data a (fun acc next => acc + g next)%R
  = (a + Rsum (map g data))%R.
Proof.
  unfold accumulate. revert a.
  induction data as [|x l IH]; intros a; simpl.
  - lra.
  - rewrite IH. lra.
Qed.

Lemma getChannelMean_R (channel : list R) :
  getChannelMean channel = Rmean_square channel.
Proof.
  destruct channel as [|x l]; [reflexivity|].
  unfold getChannelMean, Rmean_square, Rmean. cbn [empty].
  change (fun acc next : R => (acc + next * next)%fl)
    with (fun acc next : R => (acc + (fun x => x * x) next)%R).
  rewrite accumulate_Rsum. cbn [fzero R_FloatType fdiv of_size].
  unfold size. rewrite length_map, INR_IZR_INZ. f_equal. lra.
Qed.

Lemma rms_R (x : R) (xs : list R) :
  rms (x :: xs) = sqrt (Rmean (map (fun y => y * y)%R (x :: xs))).
Proof.
  change (rms (x :: xs)) with (sqrt (getChannelMean (x :: xs))).
  now rewrite getChannelMean_R.
Qed.

Lemma rms_channels_R (c : list R) (cs : list (list R)) :
  rms_channels (c :: cs) = sqrt (Rmean (map Rmean_square (c :: cs))).
Proof.
  unfold rms_channels, Rmean. cbn [empty].
  rewrite accumulate_Rsum. cbn [fzero R_FloatType fdiv of_size fsqrt].
  unfold size. rewrite length_map, INR_IZR_INZ. do 2 f_equal.
  rewrite Rplus_0_l. f_equal.
  apply map_ext. intros; apply getChannelMean_R.
Qed.

(** ** Commutativity in both arithmetics *)

Lemma R_FloatComm : FloatComm R.
Proof.
  split; intros a b; cbn.
  - apply Rplus_comm.
  - apply Rmult_comm.
Qed.

#[export] Existing Instance R_FloatComm.

Lemma SFadd_comm (prec emax : Z) (x y : spec_float) :
  SFadd prec emax x y = SFadd prec emax y x.
Proof.
  destruct x as [sx|sx| |sx mx ex], y as [sy|sy| |sy my ey];
    try reflexivity; try (destruct sx, sy; reflexivity).
  cbn [SFadd]. now rewrite Z.min_comm, Z.add_comm.
Qed.

Lemma SFmul_comm (prec emax : Z) (x y : spec_float) :
  SFmul prec emax x y = SFmul prec emax y x.
Proof.
  destruct x as [sx|sx| |sx mx ex], y as [sy|sy| |sy my ey];
    try reflexivity; cbn [SFmul]; rewrite (xorb_comm sx sy); try reflexivity.
  now rewrite Pos.mul_comm, Z.add_comm.
Qed.

Lemma IEEE_FloatComm (prec emax : Z) :
  @FloatComm spec_float (IEEE_FloatType prec emax).
Proof.
  split; intros a b; cbn.
  - apply SFadd_comm.
  - apply SFmul_comm.
Qed.

(** ** [lerp] and [remap] *)

Lemma remap_lerp_comm {T : Type} `{FC : FloatComm T} (x newMin newMax : T) :
  remap x newMin newMax = lerp newMin newMax x.
Proof.
  unfold remap, lerp.
  now rewrite fadd_comm, (fmul_comm x).
Qed.

(** C10: [remap(x, newMin, newMax)] is [lerp(newMin, newMax, x)], in exact
    arithmetic and in every IEEE binary format: the two bodies differ by the
    order of the operands of one [+] and one [*]. *)
Theorem remap_is_lerp_reordered :
  (forall x newMin newMax : R,
      remap x newMin newMax = lerp newMin newMax x) /\
  (forall (prec emax : Z) (x newMin newMax : spec_float),
      remap (FT := IEEE_FloatType prec emax) x newMin newMax
      = lerp (FT := IEEE_FloatType prec emax) newMin newMax x).
Proof.
  split.
  - intros. apply remap_lerp_comm.
  - intros prec emax x newMin newMax.
    apply (@remap_lerp_comm _ _ (IEEE_FloatComm prec emax)).
Qed.

(** C9: the overloads that take a [Range<T>] return what the base forms
    return on the unpacked [(min, max)], whatever the arithmetic. *)
Theorem remap_range_overloads_delegate :
  forall (T : Type) (FT : FloatType T) (x : T) (srcRange newRange : Range T),
    remap_ranges x srcRange newRange
    = remap5 x (min srcRange) (max srcRange) (min newRange) (max newRange) /\
    remap_range x newRange = remap x (min newRange) (max newRange) /\
    remap_ranges x srcRange newRange
    = fadd (fmul (fdiv (fsub x (min srcRange))
                       (fsub (max srcRange) (min srcRange)))
                 (fsub (max newRange) (min newRange)))
           (min newRange) /\
    remap_range x newRange
    = fadd (fmul x (fsub (max newRange) (min newRange))) (min newRange).
Proof.
  intros T FT x [smin smax] [nmin nmax]. cbn. repeat split.
Qed.

(** Exact arithmetic: normalising and rescaling with the same range cancel. *)
Lemma remap5_same_range_R (x lo hi : R) :
  lo <> hi -> remap5 x lo hi lo hi = x.
Proof.
  intros Hne. unfold remap5, remap. cbn.
  field. intros H. apply Hne. lra.
Qed.

(** ** IEEE rounding: signs and finiteness *)

Section RoundingFacts.
Local Open Scope Z_scope.
Variables prec emax : Z.

Lemma iter_pos_invariant {A : Type} (P : A -> Prop) (f : A -> A) :
  (forall x, P x -> P (f x)) ->
  forall p x, P x -> P (iter_pos f p x).
Proof.
  intros Hf. induction p as [p IH|p IH|]; intros x Hx; cbn.
  - apply IH, IH, Hf, Hx.
  - apply IH, IH, Hx.
  - apply Hf, Hx.
Qed.

(** A quantity that [f] decrements, floored at 0, has lost [p] after [p]
    rounds. *)
Lemma iter_pos_countdown {A : Type} (mu : A -> Z) (f : A -> A) :
  (forall x, mu (f x) = Z.max 0 (mu x - 1)) ->
  forall p x, mu (iter_pos f p x) = Z.max 0 (mu x - Zpos p).
Proof.
  intros Hf. induction p as [p IH|p IH|]; intros x; cbn [iter_pos].
  - rewrite !IH, Hf. lia.
  - rewrite !IH. lia.
  - apply Hf.
Qed.

Lemma shr_1_nonneg (r : shr_record) : 0 <= shr_m r -> 0 <= shr_m (shr_1 r).
Proof.
  destruct r as [[|[p|p|]|p] b s]; cbn; lia.
Qed.

Lemma shr_1_digits (r : shr_record) :
  Zdigits2 (shr_m (shr_1 r)) = Z.max 0 (Zdigits2 (shr_m r) - 1).
Proof.
  destruct r as [[|[p|p|]|[p|p|]] b s];
    cbn [shr_1 shr_m Zdigits2 digits2_pos]; rewrite ?Pos2Z.inj_succ; lia.
Qed.

Lemma shr_record_of_loc_m (m : Z) (l : location) :
  shr_m (shr_record_of_loc m l) = m.
Proof. destruct l as [|[]]; reflexivity. Qed.

Lemma shr_nonneg (r : shr_record) (e n : Z) :
  0 <= shr_m r -> 0 <= shr_m (fst (shr r e n)).
Proof.
  intros H. destruct n; cbn; try assumption.
  now apply iter_pos_invariant; [apply shr_1_nonneg|].
Qed.

Lemma shr_fexp_nonneg (m e : Z) (l : location) :
  0 <= m -> 0 <= shr_m (fst (shr_fexp prec emax m e l)).
Proof.
  intros H. apply shr_nonneg. now rewrite shr_record_of_loc_m.
Qed.

Lemma round_nearest_even_ge (m : Z) (l : location) :
  m <= round_nearest_even m l <= m + 1.
Proof.
  destruct l as [|[]]; cbn; try lia. destruct (Z.even m); lia.
Qed.

(** Rounding a non-negative significand gives a zero, a finite number or an
    infinity of the sign asked for, never NaN. *)
Lemma binary_round_aux_signed (s : bool) (m e : Z) (l : location) :
  0 <= m -> signed s (binary_round_aux prec emax s m e l).
Proof.
  intros Hm. unfold binary_round_aux.
  pose proof (shr_fexp_nonneg e l Hm) as H1.
  destruct (shr_fexp prec emax m e l) as [r1 e1]. cbn [fst] in H1.
  pose proof (round_nearest_even_ge (shr_m r1) (loc_of_shr_record r1)) as Hr.
  set (m2 := round_nearest_even _ _) in *.
  assert (H2 : 0 <= m2) by lia.
  pose proof (shr_fexp_nonneg e1 loc_Exact H2) as H3.
  destruct (shr_fexp prec emax m2 e1 loc_Exact) as [r2 e2]. cbn [fst] in H3.
  destruct (shr_m r2) as [|p|p]; cbn; try reflexivity; try lia.
  destruct (e2 <=? emax - prec); reflexivity.
Qed.

Lemma binary_round_signed (s : bool) (m : positive) (e : Z) :
  signed s (binary_round prec emax s m e).
Proof.
  unfold binary_round. destruct (shl_align _ _ _) as [mz ez].
  apply binary_round_aux_signed. lia.
Qed.

Lemma binary_normalize_not_nan (m e : Z) (sz : bool) :
  binary_normalize prec emax m e sz <> S754_nan.
Proof.
  destruct m as [|p|p]; cbn; try discriminate;
    match goal with |- binary_round _ _ ?s _ _ <> _ =>
      pose proof (binary_round_signed s p e) as H end;
    destruct (binary_round _ _ _ _ _); cbn in H; try discriminate; tauto.
Qed.

End RoundingFacts.

Section FiniteFacts.
Local Open Scope Z_scope.
Variables prec emax : Z.
Hypothesis prec_pos : 0 < prec.

(** [SpecFloat] takes [max] and [min] from [IntDef]. *)
Ltac unfold_fexp :=
  unfold fexp, emin in *;
  change IntDef.Z.max with Z.max in *;
  change IntDef.Z.min with Z.min in *.

Lemma Zdigits2_nonneg (m : Z) : 0 <= Zdigits2 m.
Proof. destruct m; cbn; lia. Qed.

Lemma digits2_pos_succ (p : positive) :
  (digits2_pos p <= digits2_pos (Pos.succ p) <= Pos.succ (digits2_pos p))%positive.
Proof.
  induction p as [p IH|p IH|]; cbn [Pos.succ digits2_pos]; lia.
Qed.

Lemma Zdigits2_succ (a : Z) :
  0 < a -> Zdigits2 a <= Zdigits2 (a + 1) <= Zdigits2 a + 1.
Proof.
  destruct a as [|p|p]; try lia. intros _.
  replace (Zpos p + 1) with (Zpos (Pos.succ p)) by lia.
  cbn [Zdigits2]. pose proof (digits2_pos_succ p). lia.
Qed.

Lemma Zdigits2_pos (m : Z) : 0 < m -> 0 < Zdigits2 m.
Proof. destruct m; cbn; lia. Qed.

Lemma Zdigits2_pos_inv (m : Z) :
  0 <= m -> 0 < Zdigits2 m -> 0 < m.
Proof. destruct m; cbn; lia. Qed.

(** What [shr_fexp] does to the exponent and to the number of digits. *)
Lemma shr_fexp_digits (m e : Z) (l : location) :
  let D := Zdigits2 m + e in
  let '(r, e') := shr_fexp prec emax m e l in
  e' = Z.max e (fexp prec emax D) /\
  Zdigits2 (shr_m r) = Z.max 0 (Zdigits2 m - (e' - e)).
Proof.
  cbn zeta. unfold shr_fexp, shr.
  pose proof (Zdigits2_nonneg m) as Hd.
  destruct (fexp prec emax (Zdigits2 m + e) - e) as [|n|n] eqn:En.
  - rewrite shr_record_of_loc_m. lia.
  - rewrite (iter_pos_countdown (fun r => Zdigits2 (shr_m r)) shr_1 shr_1_digits).
    rewrite shr_record_of_loc_m. lia.
  - rewrite shr_record_of_loc_m. lia.
Qed.

(** A positive significand whose value lies strictly between the smallest
    subnormal and the overflow threshold rounds to a finite, non-zero
    number. *)
Lemma binary_round_aux_finite (s : bool) (m e : Z) (l : location) :
  0 < m ->
  emin prec emax < Zdigits2 m + e ->
  e <= emax - prec ->
  Zdigits2 m + e + 1 <= emax ->
  emin prec emax <= emax - prec ->
  exists m' e', binary_round_aux prec emax s m e l = S754_finite s m' e'.
Proof.
  intros Hm Hlo He Hhi Hfmt. unfold binary_round_aux.
  pose proof (Zdigits2_pos Hm) as Hd.
  pose proof (shr_fexp_digits m e l) as H1.
  pose proof (@shr_fexp_nonneg prec emax m e l ltac:(lia)) as N1.
  destruct (shr_fexp prec emax m e l) as [r1 e1].
  cbn zeta in H1. cbn [fst] in N1. destruct H1 as [E1 D1].
  pose proof (round_nearest_even_ge (shr_m r1) (loc_of_shr_record r1)) as Hr.
  set (m2 := round_nearest_even _ _) in *.
  unfold_fexp.
  assert (P1 : 0 < shr_m r1) by (apply Zdigits2_pos_inv; lia).
  assert (S2 : Zdigits2 (shr_m r1) <= Zdigits2 m2 <= Zdigits2 (shr_m r1) + 1).
  { destruct (Z.eq_dec m2 (shr_m r1)) as [->|Hne]; [lia|].
    replace m2 with (shr_m r1 + 1) by lia. now apply Zdigits2_succ. }
  pose proof (shr_fexp_digits m2 e1 loc_Exact) as H2.
  pose proof (@shr_fexp_nonneg prec emax m2 e1 loc_Exact ltac:(lia)) as N2.
  destruct (shr_fexp prec emax m2 e1 loc_Exact) as [r2 e2].
  cbn zeta in H2. cbn [fst] in N2. destruct H2 as [E2 D2].
  unfold_fexp.
  assert (P2 : 0 < shr_m r2) by (apply Zdigits2_pos_inv; lia).
  destruct (shr_m r2) as [|p|p]; try lia.
  replace (e2 <=? emax - prec) with true by (symmetry; apply Z.leb_le; lia).
  eauto.
Qed.

Lemma digits2_pos_iter_xO (p k : positive) :
  Zpos (digits2_pos (Pos.iter xO p k)) = Zpos (digits2_pos p) + Zpos k.
Proof.
  induction k as [|k IH] using Pos.peano_ind.
  - cbn. lia.
  - rewrite Pos.iter_succ. cbn [digits2_pos]. lia.
Qed.

Lemma digits2_pos_size (p : positive) : digits2_pos p = Pos.size p.
Proof. induction p; cbn; congruence. Qed.

Lemma Zdigits2_bound (p : positive) (k : Z) :
  0 <= k -> Zpos p < 2 ^ k -> Zpos (digits2_pos p) <= k.
Proof.
  intros Hk Hp. rewrite digits2_pos_size.
  destruct (Z_le_gt_dec (Zpos (Pos.size p)) k) as [|Hgt]; [assumption|exfalso].
  pose proof (Pos.size_le p) as Hs.
  assert (2 ^ Zpos (Pos.size p) <= 2 * Zpos p).
  { rewrite <- Pos2Z.inj_pow. change 2 with (Zpos 2) at 1. lia. }
  assert (2 ^ (k + 1) <= 2 ^ Zpos (Pos.size p))
    by (apply Z.pow_le_mono_r; lia).
  rewrite Z.pow_add_r in * by lia. lia.
Qed.

Hypothesis prec_le_emax : prec <= emax.
Hypothesis size_fits : 65 <= emax.

(** The cast of a non-zero [std::size_t] is a finite positive number. *)
Lemma of_Z_size_finite (n : Z) :
  0 < n < 2 ^ 64 ->
  exists m e, of_Z prec emax n = S754_finite false m e.
Proof.
  intros [Hn0 Hn]. destruct n as [|p|p]; try lia.
  unfold of_Z, binary_normalize, binary_round.
  pose proof (@Zdigits2_bound p 64 ltac:(lia) Hn) as Hd.
  assert (Hd0 : 0 < Zpos (digits2_pos p)) by lia.
  unfold shl_align.
  destruct (fexp prec emax (Zpos (digits2_pos p) + 0) - 0) as [|k|k] eqn:Ek;
    apply binary_round_aux_finite; unfold_fexp; cbn [Zdigits2];
    rewrite ?digits2_pos_iter_xO; lia.
Qed.

End FiniteFacts.

(** ** IEEE operations on non-negative operands *)

Section SignFacts.
Local Open Scope Z_scope.
Variables prec emax : Z.

Lemma SFmul_square_signed (x : spec_float) :
  is_nan x = false -> signed false (SFmul prec emax x x).
Proof.
  destruct x as [s|s| |s m e]; cbn; intros Hx; try discriminate;
    try (now destruct s).
  rewrite xorb_nilpotent. apply binary_round_aux_signed. lia.
Qed.

Lemma SFadd_signed (x y : spec_float) :
  signed false x -> signed false y -> signed false (SFadd prec emax x y).
Proof.
  destruct x as [sx|sx| |sx mx ex], y as [sy|sy| |sy my ey];
    cbn [signed]; intros Hx Hy; subst; try tauto; try reflexivity.
  cbn [SFadd cond_Zopp]. cbn [Z.add binary_normalize].
  apply binary_round_signed.
Qed.

Lemma SFdiv_signed (x y : spec_float) (my : positive) (ey : Z) :
  signed false x -> y = S754_finite false my ey ->
  signed false (SFdiv prec emax x y).
Proof.
  intros Hx ->.
  destruct x as [sx|sx| |sx mx ex]; cbn [signed] in Hx; subst;
    try tauto; try reflexivity.
  cbn [SFdiv xorb]. unfold SFdiv_core_binary.
  set (e' := Z.min _ _). set (sh := Z.sub _ e').
  set (m' := match sh with 0 => Zpos mx | Zpos _ => Z.shiftl (Zpos mx) sh
                      | Zneg _ => 0 end).
  assert (Hm' : 0 <= m').
  { subst m'. destruct sh; try lia. apply Z.shiftl_nonneg. lia. }
  pose proof (Z.div_pos m' (Zpos my) Hm' ltac:(lia)) as Hq.
  unfold Z.div in Hq.
  destruct (Z.div_eucl m' (Zpos my)) as [q r].
  now apply binary_round_aux_signed.
Qed.

Lemma SFsqrt_signed (x : spec_float) :
  signed false x -> signed false (SFsqrt prec emax x).
Proof.
  destruct x as [sx|sx| |sx mx ex]; cbn [signed]; intros Hx; subst;
    try tauto; try reflexivity.
  cbn [SFsqrt]. unfold SFsqrt_core_binary.
  set (e' := Z.min _ _). set (sh := Z.sub _ _).
  set (m' := match sh with 0 => Zpos mx | Zpos _ => Z.shiftl (Zpos mx) sh
                      | Zneg _ => 0 end).
  pose proof (Z.sqrt_nonneg m') as Hq.
  rewrite <- Z.sqrtrem_sqrt in Hq.
  destruct (Z.sqrtrem m') as [q r].
  now apply binary_round_aux_signed.
Qed.

Lemma signed_nonneg (x : spec_float) :
  signed false x -> nonneg x = true /\ is_nan x = false.
Proof.
  destruct x as [s|s| |s m e]; cbn [signed]; intros Hx; subst;
    try tauto; split; reflexivity.
Qed.

End SignFacts.

(** ** [rms] in IEEE arithmetic *)

Section RmsIEEE.
Local Open Scope Z_scope.
Variables prec emax : Z.
Hypothesis format_ok : supported_format prec emax = true.

Local Abbreviation F := (IEEE_FloatType prec emax).

Lemma supported_format_spec :
  0 < prec /\ prec <= emax /\ 65 <= emax.
Proof.
  unfold supported_format in format_ok.
  apply andb_prop in format_ok as [H12 H3].
  apply andb_prop in H12 as [H1 H2].
  apply Z.ltb_lt in H1. apply Z.leb_le in H2, H3. auto.
Qed.

Lemma of_size_finite {A : Type} (x : A) (xs : list A) :
  fits_size_t (x :: xs) = true ->
  exists m e, of_size (FloatType := F) (size (x :: xs)) = S754_finite false m e.
Proof.
  unfold fits_size_t, size_modulus. intros Hfit. apply Z.ltb_lt in Hfit.
  destruct supported_format_spec as (H1 & H2 & H3).
  apply of_Z_size_finite; try assumption.
  unfold size in *. cbn [length] in *. lia.
Qed.

Lemma accumulate_squares_signed (data : list spec_float) :
  forall a, signed false a -> nan_free data = true ->
  signed false (accumulate data a
       (fun acc next => SFadd prec emax acc (SFmul prec emax next next))).
Proof.
  unfold accumulate.
  induction data as [|x l IH]; intros a Ha Hd; cbn [fold_left].
  - assumption.
  - cbn in Hd. apply andb_prop in Hd as [Hx Hl].
    apply IH; [|assumption].
    apply SFadd_signed; [assumption|].
    apply SFmul_square_signed. now destruct (is_nan x).
Qed.

Lemma getChannelMean_signed (channel : list spec_float) :
  fits_size_t channel = true -> nan_free channel = true ->
  signed false (getChannelMean (FT := F) channel).
Proof.
  intros Hfit Hd. destruct channel as [|x l]; [reflexivity|].
  unfold getChannelMean. cbn [empty].
  destruct (of_size_finite x l Hfit) as (m & e & Hn).
  eapply SFdiv_signed; [|exact Hn].
  apply accumulate_squares_signed; [reflexivity|assumption].
Qed.

Lemma rms_signed (data : list spec_float) :
  fits_size_t data = true -> nan_free data = true ->
  signed false (rms (FT := F) data).
Proof.
  intros Hfit Hd. destruct data as [|x l]; [reflexivity|].
  change (rms (FT := F) (x :: l))
    with (SFsqrt prec emax (getChannelMean (FT := F) (x :: l))).
  now apply SFsqrt_signed, getChannelMean_signed.
Qed.

Lemma accumulate_means_signed (data : list (list spec_float)) :
  forall a, signed false a ->
  forallb (fun c => fits_size_t c && nan_free c) data = true ->
  signed false
    (accumulate data a
       (fun acc next => SFadd prec emax acc (getChannelMean (FT := F) next))).
Proof.
  unfold accumulate.
  induction data as [|c l IH]; intros a Ha Hd; cbn [fold_left].
  - assumption.
  - cbn [forallb] in Hd. apply andb_prop in Hd as [Hc Hl].
    apply andb_prop in Hc as [Hc1 Hc2].
    apply IH; [|assumption].
    apply SFadd_signed; [assumption|].
    now apply getChannelMean_signed.
Qed.

Lemma rms_channels_signed (data : list (list spec_float)) :
  channels_ok data = true -> signed false (rms_channels (FT := F) data).
Proof.
  unfold channels_ok. intros Hd. apply andb_prop in Hd as [Hfit Hd].
  destruct data as [|c l]; [reflexivity|].
  unfold rms_channels. cbn [empty].
  destruct (of_size_finite c l Hfit) as (m & e & Hn).
  apply SFsqrt_signed.
  eapply SFdiv_signed; [|exact Hn].
  apply accumulate_means_signed; [reflexivity|assumption].
Qed.

Lemma accumulate_empty_channels (data : list (list spec_float)) :
  forallb empty data = true ->
  accumulate data (S754_zero false)
    (fun acc next => SFadd prec emax acc (getChannelMean (FT := F) next))
  = S754_zero false.
Proof.
  unfold accumulate.
  induction data as [|c l IH]; intros Hd; cbn [fold_left].
  - reflexivity.
  - cbn [forallb] in Hd. apply andb_prop in Hd as [Hc Hl].
    destruct c; [|discriminate]. cbn. now apply IH.
Qed.

Lemma rms_channels_all_empty (data : list (list spec_float)) :
  fits_size_t data = true -> forallb empty data = true ->
  rms_channels (FT := F) data = S754_zero false.
Proof.
  intros Hfit Hd. destruct data as [|c l]; [reflexivity|].
  unfold rms_channels. cbn [empty].
  rewrite accumulate_empty_channels by assumption.
  destruct (of_size_finite c l Hfit) as (m & e & ->).
  reflexivity.
Qed.

End RmsIEEE.

(** ** Views *)

Section ViewFacts.
Import View.
Local Open Scope Z_scope.
Variable T : Type.
Variable sizeof_T : Z.

Lemma wrap_small (n : Z) : 0 <= n < size_modulus -> wrap n = n.
Proof. intros H. unfold wrap. now apply Z.mod_small. Qed.

Lemma even_halves (n : Z) : n mod 2 = 0 -> n / 2 * 2 = n.
Proof. intros H. pose proof (Z.div_mod n 2 ltac:(lia)). lia. Qed.

(** A buffer of complexes that exists has a representable number of
    reals. *)
Lemma in_memory_double (c : span Complex) :
  0 < sizeof_T -> in_memory sizeof_T c -> 0 <= size c * 2 < size_modulus.
Proof.
  unfold in_memory, sizeof. intros Hs (Hd & Hn & Hend). nia.
Qed.

Lemma interleaved_index (f : Z -> T) (n : nat) :
  map f (map Z.of_nat (seq 0 (2 * n)))
  = flat_map (fun i => [f (2 * i); f (2 * i + 1)]) (map Z.of_nat (seq 0 n)).
Proof.
  induction n as [|n IH].
  - reflexivity.
  - replace (2 * S n)%nat with (S (S (2 * n))) by lia.
    rewrite !seq_S, !map_app, IH, flat_map_app.
    cbn [map flat_map app]. rewrite <- app_assoc. cbn [app].
    f_equal. f_equal; [f_equal; lia | do 2 f_equal; lia].
Qed.

Lemma complex_at_parts (m : memory T) (c : span Complex) (i : Z) :
  complex_at sizeof_T m c i
  = (real_at sizeof_T m {| data := data c; size := wrap (size c * 2) |} (2 * i),
     real_at sizeof_T m {| data := data c; size := wrap (size c * 2) |}
       (2 * i + 1)).
Proof.
  unfold complex_at, real_at, sizeof. cbn [data].
  f_equal; f_equal; ring.
Qed.

Lemma read_interleaved (m : memory T) (c : span Complex) :
  0 <= size c * 2 < size_modulus ->
  read_real sizeof_T m (complexViewToInterleaved c)
  = flat_map (fun z => [fst z; snd z]) (read_complex sizeof_T m c).
Proof.
  intros Hn. unfold read_real, read_complex, complexViewToInterleaved, indices.
  cbn [size]. rewrite wrap_small by assumption.
  replace (Z.to_nat (size c * 2)) with (2 * Z.to_nat (size c))%nat by lia.
  rewrite interleaved_index.
  generalize (map Z.of_nat (seq 0 (Z.to_nat (size c)))) as l.
  induction l as [|i l IH]; cbn [map flat_map app].
  - reflexivity.
  - rewrite IH, complex_at_parts. reflexivity.
Qed.

End ViewFacts.

Section ViewClaims.
Import View.
Local Open Scope Z_scope.

(** C3: on a buffer of an even number [N] of reals,
    [interleavedToComplexView] returns a view of [N / 2] complexes at the
    same address, over the same bytes, whose element [i] has real part the
    real element [2 i] and imaginary part the real element [2 i + 1].  The evenness is checked
    by the [assert] alone: a build with [NDEBUG] returns the view for any
    [N], a debug build aborts exactly when [N] is odd. *)
Theorem interleavedToComplexView_spec :
  forall (T : Type) (sizeof_T : Z) (d : span Real),
    (forall NDEBUG : bool,
        size d mod 2 = 0 ->
        exists v : span Complex,
          interleavedToComplexView NDEBUG d = Some v /\
          data v = data d /\
          size v = size d / 2 /\
          size v * sizeof sizeof_T Complex = size d * sizeof sizeof_T Real /\
          forall (m : memory T) (i : Z),
            0 <= i < size d / 2 ->
            complex_at sizeof_T m v i
            = (real_at sizeof_T m d (2 * i),
               real_at sizeof_T m d (2 * i + 1))) /\
    interleavedToComplexView true d
    = Some {| data := data d; size := size d / 2 |} /\
    (interleavedToComplexView false d = None <-> size d mod 2 <> 0).
Proof.
  intros T sizeof_T d. repeat split.
  - intros NDEBUG Heven.
    exists {| data := data d; size := size d / 2 |}.
    unfold interleavedToComplexView. rewrite Heven, orb_true_r.
    split; [reflexivity|]. split; [reflexivity|]. split; [reflexivity|].
    split.
    + cbn [size sizeof]. pose proof (even_halves _ Heven). nia.
    + intros m i _.
      unfold complex_at, real_at, sizeof. cbn [data].
      f_equal; f_equal; ring.
  - unfold interleavedToComplexView. cbn [orb].
    destruct (size d mod 2 =? 0) eqn:E; [discriminate|].
    intros _. now apply Z.eqb_neq.
  - unfold interleavedToComplexView. cbn [orb]. intros Hodd.
    apply Z.eqb_neq in Hodd. now rewrite Hodd.
Qed.

Lemma interleavedToComplexView_spec_witness :
  8 mod 2 = 0 /\
  exists v : span Complex,
    interleavedToComplexView false {| data := 4096; size := 8 |} = Some v /\
    data v = 4096 /\ size v = 4 /\
    forall (m : memory R),
      complex_at 8 m v 3 = (m (4096 + 6 * 8), m (4096 + 7 * 8)).
Proof.
  split; [reflexivity|].
  destruct (interleavedToComplexView_spec R 8 {| data := 4096; size := 8 |})
    as [Heven _].
  destruct (Heven false eq_refl) as (v & Hv & Hd & Hs & _ & Hel).
  exists v. split; [exact Hv|]. split; [exact Hd|]. split; [exact Hs|].
  intros m. apply (Hel m 3). split; [discriminate | reflexivity].
Defined.

(** C4: [complexViewToInterleaved] is total: no assertion, no condition on
    the count [M], even or odd.  The view it returns starts at the same
    address, and its elements [2 i] and [2 i + 1] are the real and the
    imaginary part of the complex element [i].  Its count is [2 M] in
    [std::size_t] arithmetic, which is [2 M] for every buffer that exists;
    the view then covers the same bytes and reads
    [re0, im0, re1, im1, ...]. *)
Theorem complexViewToInterleaved_spec :
  forall (T : Type) (sizeof_T : Z) (c : span Complex),
    data (complexViewToInterleaved c) = data c /\
    size (complexViewToInterleaved c) = wrap (2 * size c) /\
    (forall (m : memory T) (i : Z),
        real_at sizeof_T m (complexViewToInterleaved c) (2 * i)
        = fst (complex_at sizeof_T m c i) /\
        real_at sizeof_T m (complexViewToInterleaved c) (2 * i + 1)
        = snd (complex_at sizeof_T m c i)) /\
    (0 < sizeof_T ->
     in_memory sizeof_T c ->
     size (complexViewToInterleaved c) = 2 * size c /\
     size (complexViewToInterleaved c) * sizeof sizeof_T Real
     = size c * sizeof sizeof_T Complex /\
     forall m : memory T,
       read_real sizeof_T m (complexViewToInterleaved c)
       = flat_map (fun z => [fst z; snd z]) (read_complex sizeof_T m c)).
Proof.
  intros T sizeof_T c.
  split; [reflexivity|].
  split; [cbn [complexViewToInterleaved size]; f_equal; ring|].
  split.
  - intros m i. rewrite complex_at_parts. split; reflexivity.
  - intros Hs Hc.
    pose proof (in_memory_double Hs Hc) as Hn.
    assert (Hsz : size (complexViewToInterleaved c) = 2 * size c).
    { unfold complexViewToInterleaved. cbn [size].
      rewrite wrap_small by assumption. lia. }
    split; [exact Hsz|]. split.
    + rewrite Hsz. unfold sizeof. ring.
    + intros m. now apply read_interleaved.
Qed.

Lemma complexViewToInterleaved_spec_witness :
  0 < 8 /\
  @in_memory 8 Complex {| data := 4096; size := 3 |} /\
  size (complexViewToInterleaved {| data := 4096; size := 3 |}) = 2 * 3 /\
  forall m : memory R,
    read_real 8 m (complexViewToInterleaved {| data := 4096; size := 3 |})
    = flat_map (fun z => [fst z; snd z])
        (read_complex 8 m {| data := 4096; size := 3 |}).
Proof.
  assert (H8 : 0 < 8) by reflexivity.
  assert (Hm : @in_memory 8 Complex {| data := 4096; size := 3 |})
    by (unfold in_memory; cbn; repeat split; discriminate).
  split; [exact H8|]. split; [exact Hm|].
  destruct (complexViewToInterleaved_spec R 8 {| data := 4096; size := 3 |})
    as (_ & _ & _ & Hbuf).
  destruct (Hbuf H8 Hm) as (Hsz & _ & Hread).
  split; [exact Hsz | exact Hread].
Defined.

(** C2: on an even-length buffer of reals, viewing it as complexes and
    viewing the result as reals gives the descriptor one started from: the
    same address and the same count. *)
Theorem view_round_trip :
  forall (NDEBUG : bool) (b : span Real),
    0 <= size b < size_modulus ->
    size b mod 2 = 0 ->
    exists c : span Complex,
      interleavedToComplexView NDEBUG b = Some c /\
      complexViewToInterleaved c = b /\
      data (complexViewToInterleaved c) = data b /\
      size (complexViewToInterleaved c) = size b.
Proof.
  intros NDEBUG [base n] Hn Heven. cbn [size] in *.
  exists {| data := base; size := n / 2 |}.
  unfold interleavedToComplexView, complexViewToInterleaved.
  cbn [size data]. rewrite Heven, orb_true_r.
  rewrite (even_halves n Heven), wrap_small by assumption.
  repeat split.
Qed.

Lemma view_round_trip_witness :
  0 <= 8 < size_modulus /\ 8 mod 2 = 0 /\
  exists c : span Complex,
    interleavedToComplexView false {| data := 4096; size := 8 |} = Some c /\
    complexViewToInterleaved c = {| data := 4096; size := 8 |} /\
    data (complexViewToInterleaved c) = 4096 /\
    size (complexViewToInterleaved c) = 8.
Proof.
  assert (Hn : 0 <= 8 < size_modulus) by (split; [discriminate | reflexivity]).
  split; [exact Hn|]. split; [reflexivity|].
  exact (@view_round_trip false {| data := 4096; size := 8 |} Hn eq_refl).
Defined.

End ViewClaims.

(** ** The claims on [rms] *)

Lemma sqrt_5_not_2 : sqrt 5 <> 2%R.
Proof.
  intros H.
  assert (H5 : (sqrt 5 * sqrt 5 = 5)%R) by (apply sqrt_sqrt; lra).
  rewrite H in H5. lra.
Qed.

Lemma rms_R_pair (a : R) : (0 <= a)%R -> rms [a; a] = a.
Proof.
  intros Ha. rewrite rms_R. unfold Rmean, Rsum. cbn [map fold_right length INR].
  replace ((a * a + (a * a + 0)) / (1 + 1))%R with (a * a)%R by lra.
  now apply sqrt_square.
Qed.

(** C1: on a non-empty sequence of channels the multichannel [rms] is the
    square root of the average over the channels of the per-channel mean
    squares, an empty channel counting for 0: with the sums taken in [T] in
    element order for any arithmetic, and as the plain mathematical average
    over the reals.  On [[1,1],[3,3]] it is [sqrt 5], in exact arithmetic and
    in [double], which is not the average 2 of the per-channel RMS values. *)
Theorem rms_channels_spec :
  (forall (T : Type) (FT : FloatType T) (c : list T) (cs : list (list T)),
      rms_channels (c :: cs) = fsqrt (average_of mean_square [] (c :: cs)) /\
      mean_square (@nil T) = fzero) /\
  (forall (c : list R) (cs : list (list R)),
      rms_channels (c :: cs) = sqrt (Rmean (map Rmean_square (c :: cs)))) /\
  (rms_channels [[1; 1]; [3; 3]]%R = sqrt 5 /\
   sqrt 5 <> ((rms [1; 1] + rms [3; 3]) / 2)%R) /\
  (rms_channels (FT := binary64) [[b64 1; b64 1]; [b64 3; b64 3]]
   = fsqrt (FloatType := binary64) (b64 5) /\
   fsqrt (FloatType := binary64) (b64 5)
   <> fdiv (FloatType := binary64)
        (fadd (FloatType := binary64)
           (rms (FT := binary64) [b64 1; b64 1])
           (rms (FT := binary64) [b64 3; b64 3]))
        (b64 2)).
Proof.
  split; [|split; [|split]].
  - intros T FT c cs. split; [apply rms_channels_in_order | reflexivity].
  - apply rms_channels_R.
  - split.
    + rewrite rms_channels_R. f_equal.
      unfold Rmean, Rmean_square, Rmean, Rsum.
      cbn [map fold_right length INR]. lra.
    + rewrite !rms_R_pair by lra.
      replace ((1 + 3) / 2)%R with 2%R by lra. apply sqrt_5_not_2.
  - split; [vm_compute; reflexivity | vm_compute; discriminate].
Qed.

(** C5: the single-sequence [rms] is exactly 0 on an empty input (the
    positive zero in IEEE arithmetic, not NaN), and on [x_1 .. x_n], [n > 0],
    it is the square root of [(x_1^2 + ... + x_n^2) / n], the sum being
    accumulated in [T] from 0 in element order; over the reals this is the
    mathematical root mean square. *)
Theorem rms_spec :
  (forall (T : Type) (FT : FloatType T),
      rms (@nil T) = fzero /\
      forall (x : T) (xs : list T),
        rms (x :: xs)
        = fsqrt (fdiv (sum_upto square fzero (x :: xs) (length (x :: xs)))
                      (of_size (size (x :: xs))))) /\
  (rms (@nil R) = 0%R /\
   forall (x : R) (xs : list R),
     rms (x :: xs)
     = sqrt (Rsum (map (fun y => y * y)%R (x :: xs))
             / INR (length (x :: xs)))) /\
  (forall prec emax : Z,
      rms (FT := IEEE_FloatType prec emax) [] = S754_zero false /\
      is_nan (rms (FT := IEEE_FloatType prec emax) []) = false).
Proof.
  split; [|split].
  - intros T FT. split; [reflexivity|]. intros x xs. apply rms_in_order.
  - split; [reflexivity|]. intros x xs. rewrite rms_R. unfold Rmean.
    now rewrite length_map.
  - intros prec emax. split; reflexivity.
Qed.

(** ** [sinc] *)

Lemma sinc_unfold {T : Type} `{FC : FloatComm T} `{TR : FloatTrig T} (x : T) :
  sinc x
  = if flt (fabs x) fepsilon then fone
    else fdiv (fsin (fmul fpi x)) (fmul fpi x).
Proof.
  unfold sinc. now rewrite (fmul_comm x fpi).
Qed.

(** The [double] nearest to [10^-6] is the literal [1e-6]. *)
Lemma double_1em6_nearest :
  double_1em6 = SFdiv 53 1024 (b64 1) (b64 1000000) /\
  valid_binary 53 1024 double_1em6 = true /\
  cast_double 53 1024 double_1em6 = double_1em6.
Proof. repeat split. Qed.

(** C6: [sinc x] is exactly 1 when [|x| < 1e-6], the epsilon being the
    literal cast to [T], and [sin (pi x) / (pi x)] otherwise; [sinc 0] is 1.
    Over the reals, and in any IEEE format whatever [std::sin] and [pi_v]
    are there. *)
Theorem sinc_spec :
  (forall x : R,
      sinc x
      = if Rlt_dec (Rabs x) (1 / 1000000) then 1%R
        else (sin (PI * x) / (PI * x))%R) /\
  sinc 0%R = 1%R /\
  (forall (prec emax : Z) (TR : FloatTrig spec_float) (x : spec_float),
      sinc (FT := IEEE_FloatType prec emax) x
      = if SFltb (SFabs x) (cast_double prec emax double_1em6)
        then of_Z prec emax 1
        else SFdiv prec emax (fsin (SFmul prec emax fpi x))
                             (SFmul prec emax fpi x)) /\
  (forall (TR : FloatTrig spec_float) (s : bool),
      sinc (FT := binary64) (S754_zero s) = b64 1 /\
      sinc (FT := binary32) (S754_zero s) = of_Z 24 128 1).
Proof.
  split; [|split; [|split]].
  - intros x. rewrite sinc_unfold. cbn. unfold Rltb.
    now destruct (Rlt_dec (Rabs x) (1 / 1000000)).
  - unfold sinc. cbn. unfold Rltb.
    destruct (Rlt_dec (Rabs 0) (1 / 1000000)) as [|Hn]; [reflexivity|].
    exfalso. apply Hn. rewrite Rabs_R0. lra.
  - intros prec emax TR x.
    apply (@sinc_unfold _ _ (IEEE_FloatComm prec emax)).
  - intros TR s. split; destruct s; reflexivity.
Qed.

(** ** Powers of two and binary digits *)

Section Pow2Facts.
Local Open Scope R_scope.

Lemma pow2_pos (e : Z) : 0 < pow2 e.
Proof. apply powerRZ_lt. lra. Qed.

Lemma pow2_add (a b : Z) : pow2 (a + b) = pow2 a * pow2 b.
Proof. apply powerRZ_add. lra. Qed.

Lemma pow2_0 : pow2 0 = 1.
Proof. reflexivity. Qed.

Lemma pow2_1 : pow2 1 = 2.
Proof. apply powerRZ_1. Qed.

Lemma pow2_succ (e : Z) : pow2 (e + 1) = 2 * pow2 e.
Proof. rewrite pow2_add, pow2_1. lra. Qed.

Lemma pow2_pred (e : Z) : pow2 (e - 1) = pow2 e / 2.
Proof.
  replace e with ((e - 1) + 1)%Z at 2 by lia. rewrite pow2_succ. lra.
Qed.

Lemma pow2_ge_1 (k : Z) : (0 <= k)%Z -> 1 <= pow2 k.
Proof.
  intros Hk. pattern k. apply natlike_ind; [rewrite pow2_0; lra| |assumption].
  intros x Hx IH. unfold Z.succ. rewrite pow2_succ. lra.
Qed.

Lemma pow2_le (a b : Z) : (a <= b)%Z -> pow2 a <= pow2 b.
Proof.
  intros H. replace b with (a + (b - a))%Z by lia. rewrite pow2_add.
  pose proof (pow2_pos a). pose proof (@pow2_ge_1 (b - a)%Z ltac:(lia)). nra.
Qed.

Lemma pow2_lt (a b : Z) : (a < b)%Z -> pow2 a < pow2 b.
Proof.
  intros H. pose proof (@pow2_le (a + 1)%Z b ltac:(lia)) as Hle.
  rewrite pow2_succ in Hle. pose proof (pow2_pos a). lra.
Qed.

(** Exponents compare as the powers do. *)
Lemma pow2_lt_inv (a b : Z) : pow2 a < pow2 b -> (a < b)%Z.
Proof.
  intros H. destruct (Z_lt_le_dec a b) as [|Hle]; [assumption|].
  apply pow2_le in Hle. lra.
Qed.

Lemma pow2_IZR (k : Z) : (0 <= k)%Z -> IZR (2 ^ k) = pow2 k.
Proof.
  intros Hk. pattern k. apply natlike_ind; [reflexivity| |assumption].
  intros x Hx IH. rewrite Z.pow_succ_r by assumption.
  unfold Z.succ. rewrite pow2_succ, mult_IZR, IH. reflexivity.
Qed.

(** A positive number of [d] binary digits lies in [[2^(d-1), 2^d)]. *)
Lemma digits2_pos_bounds (p : positive) :
  pow2 (Zpos (digits2_pos p) - 1) <= IZR (Zpos p)
  /\ IZR (Zpos p) < pow2 (Zpos (digits2_pos p)).
Proof.
  induction p as [p [IHl IHu]|p [IHl IHu]|]; cbn [digits2_pos].
  - rewrite Pos2Z.inj_succ. set (d := Zpos (digits2_pos p)) in *.
    replace (Z.succ d - 1)%Z with ((d - 1) + 1)%Z by lia.
    replace (Z.succ d) with (d + 1)%Z by lia.
    rewrite (pow2_succ (d - 1)), (pow2_succ d), (IZR_POS_xI p).
    assert (Hs : IZR (Zpos p) + 1 <= pow2 d).
    { rewrite <- pow2_IZR by (subst d; lia). rewrite <- plus_IZR.
      apply IZR_le.
      rewrite <- pow2_IZR in IHu by (subst d; lia).
      apply lt_IZR in IHu. lia. }
    lra.
  - rewrite Pos2Z.inj_succ. set (d := Zpos (digits2_pos p)) in *.
    replace (Z.succ d - 1)%Z with ((d - 1) + 1)%Z by lia.
    replace (Z.succ d) with (d + 1)%Z by lia.
    rewrite (pow2_succ (d - 1)), (pow2_succ d), (IZR_POS_xO p). lra.
  - change (Zpos 1 - 1)%Z with 0%Z. rewrite pow2_0, pow2_1. lra.
Qed.

Lemma Zdigits2_bounds (m : Z) :
  (0 < m)%Z ->
  pow2 (Zdigits2 m - 1) <= IZR m /\ IZR m < pow2 (Zdigits2 m).
Proof.
  destruct m as [|p|p]; try lia. intros _. apply digits2_pos_bounds.
Qed.

End Pow2Facts.

(** ** Rounding: the value of the result *)

Section LocatedFacts.
Local Open Scope R_scope.

Lemma loc_of_shr_record_of_loc (m : Z) (l : location) :
  loc_of_shr_record (shr_record_of_loc m l) = l.
Proof. destruct l as [|[]]; reflexivity. Qed.

(** One shift to the right halves the value and keeps track of where it
    lies. *)
Lemma shr_1_located (t : R) (r : shr_record) :
  (0 <= shr_m r)%Z ->
  located t (shr_m r) (loc_of_shr_record r) ->
  located (t / 2) (shr_m (shr_1 r)) (loc_of_shr_record (shr_1 r)).
Proof.
  destruct r as [m b s]. cbn [shr_m]. intros Hm.
  destruct m as [|[p|p|]|p]; try lia;
    destruct b, s; cbn [shr_1 orb loc_of_shr_record located shr_m];
    rewrite ?(IZR_POS_xO p), ?(IZR_POS_xI p); lra.
Qed.

Lemma iter_shr_1_located (p : positive) :
  forall (t : R) (r : shr_record),
    (0 <= shr_m r)%Z ->
    located t (shr_m r) (loc_of_shr_record r) ->
    located (t / pow2 (Zpos p)) (shr_m (iter_pos shr_1 p r))
      (loc_of_shr_record (iter_pos shr_1 p r)).
Proof.
  induction p as [p IH|p IH|]; intros t r Hm Ht; cbn [iter_pos].
  - replace (t / pow2 (Zpos p~1))
      with (t / 2 / pow2 (Zpos p) / pow2 (Zpos p)).
    + apply IH; [now apply iter_pos_invariant; [apply shr_1_nonneg|
                                                apply shr_1_nonneg]|].
      apply IH; [now apply shr_1_nonneg|]. now apply shr_1_located.
    + rewrite Pos2Z.inj_xI.
      replace (2 * Zpos p + 1)%Z with (Zpos p + Zpos p + 1)%Z by lia.
      rewrite !pow2_add, pow2_1.
      pose proof (pow2_pos (Zpos p)). field. lra.
  - replace (t / pow2 (Zpos p~0)) with (t / pow2 (Zpos p) / pow2 (Zpos p)).
    + apply IH; [now apply iter_pos_invariant; [apply shr_1_nonneg|]|].
      now apply IH.
    + rewrite Pos2Z.inj_xO.
      replace (2 * Zpos p)%Z with (Zpos p + Zpos p)%Z by lia.
      rewrite !pow2_add.
      pose proof (pow2_pos (Zpos p)). field. lra.
  - rewrite pow2_1. now apply shr_1_located.
Qed.

End LocatedFacts.

Section RoundValue.
Local Open Scope R_scope.
Variables prec emax : Z.
Hypothesis prec_pos : (0 < prec)%Z.

Ltac unfold_fexp :=
  unfold fexp, emin in *;
  change IntDef.Z.max with Z.max in *;
  change IntDef.Z.min with Z.min in *.

Lemma shr_fexp_located (m e : Z) (l : location) (t : R) :
  (0 <= m)%Z -> located t m l ->
  located (t / pow2 (snd (shr_fexp prec emax m e l) - e))
    (shr_m (fst (shr_fexp prec emax m e l)))
    (loc_of_shr_record (fst (shr_fexp prec emax m e l))).
Proof.
  intros Hm Ht. unfold shr_fexp, shr.
  assert (H0 : located (t / pow2 (e - e)) m l).
  { rewrite Z.sub_diag, pow2_0. now replace (t / 1) with t by lra. }
  destruct (fexp prec emax (Zdigits2 m + e) - e)%Z as [|n|n]; cbn [fst snd].
  - now rewrite shr_record_of_loc_m, loc_of_shr_record_of_loc.
  - replace (e + Zpos n - e)%Z with (Zpos n) by lia.
    apply iter_shr_1_located.
    + now rewrite shr_record_of_loc_m.
    + now rewrite shr_record_of_loc_m, loc_of_shr_record_of_loc.
  - now rewrite shr_record_of_loc_m, loc_of_shr_record_of_loc.
Qed.

Lemma round_nearest_even_located (t : R) (m : Z) (l : location) :
  located t m l ->
  Rabs (IZR (round_nearest_even m l) - t) <= / 2 /\
  (l = loc_Exact -> round_nearest_even m l = m).
Proof.
  intros Ht. split; [|now intros ->].
  destruct l as [|[]]; cbn [located round_nearest_even] in *.
  - rewrite Ht. replace (IZR m - IZR m) with 0 by lra. rewrite Rabs_R0. lra.
  - destruct (Z.even m); rewrite ?plus_IZR, Ht; apply Rabs_le; lra.
  - apply Rabs_le. lra.
  - rewrite plus_IZR. apply Rabs_le. lra.
Qed.

(** With an exact location [shr_fexp] shifts by [n] bits, and by none when
    [n <= 0]. *)
Lemma shr_fexp_exact_cases (m e : Z) :
  let n := (fexp prec emax (Zdigits2 m + e) - e)%Z in
  ((n <= 0)%Z ->
   shr_fexp prec emax m e loc_Exact
   = ({| shr_m := m; shr_r := false; shr_s := false |}, e)) /\
  (n = 1%Z ->
   shr_fexp prec emax m e loc_Exact
   = (shr_1 {| shr_m := m; shr_r := false; shr_s := false |}, (e + 1)%Z)).
Proof.
  cbn zeta. unfold shr_fexp, shr.
  destruct (fexp prec emax (Zdigits2 m + e) - e)%Z as [|n|n]; split;
    intros H; try reflexivity; try lia.
  injection H as ->. reflexivity.
Qed.

(** A carry into a new binary digit leaves an even number. *)
Lemma digits_carry_even (p : positive) :
  digits2_pos (Pos.succ p) = Pos.succ (digits2_pos p) ->
  exists q, Pos.succ p = xO q.
Proof.
  destruct p as [p|p|]; cbn [Pos.succ digits2_pos]; intros H.
  - eauto.
  - lia.
  - eauto.
Qed.

Lemma Zdigits2_succ_le (a : Z) :
  (0 <= a)%Z -> (Zdigits2 a <= Zdigits2 (a + 1) <= Zdigits2 a + 1)%Z.
Proof.
  intros Ha. destruct (Z.eq_dec a 0) as [->|Hne]; [cbn; lia|].
  apply Zdigits2_succ. lia.
Qed.

(** The value [binary_round_aux] returns: a canonical significand and
    exponent within half a unit of the exponent [fexp D] of the exact
    value, and the exact value itself when nothing has to be rounded off. *)
Lemma binary_round_aux_value (s : bool) (m e : Z) (l : location) (t : R) :
  (0 <= m)%Z -> located t m l ->
  (e <= fexp prec emax (Zdigits2 m + e))%Z ->
  exists m3 e3 : Z,
    binary_round_aux prec emax s m e l
    = match m3 with
      | Z0 => S754_zero s
      | Zpos p =>
          if (e3 <=? emax - prec)%Z then S754_finite s p e3
          else S754_infinity s
      | Zneg _ => S754_nan
      end /\
    (0 <= m3)%Z /\
    (m3 <> 0%Z -> e3 = fexp prec emax (Zdigits2 m3 + e3)) /\
    (e3 <= fexp prec emax (Zdigits2 m + e + 1))%Z /\
    Rabs (IZR m3 * pow2 e3 - t * pow2 e)
    <= pow2 (fexp prec emax (Zdigits2 m + e)) / 2 /\
    (l = loc_Exact -> e = fexp prec emax (Zdigits2 m + e) ->
     IZR m3 * pow2 e3 = t * pow2 e).
Proof.
  intros Hm Ht He. unfold binary_round_aux.
  pose proof (Zdigits2_nonneg m) as Hd.
  pose proof (shr_fexp_digits prec emax m e l) as H1.
  pose proof (@shr_fexp_nonneg prec emax m e l Hm) as N1.
  pose proof (@shr_fexp_located m e l t Hm Ht) as L1.
  destruct (shr_fexp prec emax m e l) as [r1 e1] eqn:Esh.
  cbn zeta in H1. cbn [fst snd] in N1, L1. destruct H1 as [E1 D1].
  assert (EX : l = loc_Exact -> e = fexp prec emax (Zdigits2 m + e) ->
               loc_of_shr_record r1 = loc_Exact).
  { intros -> Hee.
    rewrite (proj1 (shr_fexp_exact_cases m e)) in Esh by lia.
    now injection Esh as <- <-. }
  set (m1 := shr_m r1) in *. set (l1 := loc_of_shr_record r1) in *.
  destruct (@round_nearest_even_located _ _ _ L1) as [R2 X2].
  pose proof (round_nearest_even_ge m1 l1) as Hr.
  set (m2 := round_nearest_even m1 l1) in *.
  pose proof (Zdigits2_succ_le N1) as S1.
  assert (S2 : (Zdigits2 m1 <= Zdigits2 m2 <= Zdigits2 m1 + 1)%Z).
  { destruct (Z.eq_dec m2 m1) as [->|Hne]; [lia|].
    replace m2 with (m1 + 1)%Z by lia. exact S1. }
  assert (He1 : e1 = fexp prec emax (Zdigits2 m + e)) by lia.
  (* the value carried so far *)
  assert (V1 : t / pow2 (e1 - e) * pow2 e1 = t * pow2 e).
  { replace e1 with ((e1 - e) + e)%Z at 2 by lia. rewrite pow2_add.
    pose proof (pow2_pos (e1 - e)). field. lra. }
  assert (Verr : Rabs (IZR m2 * pow2 e1 - t * pow2 e)
                 <= pow2 (fexp prec emax (Zdigits2 m + e)) / 2).
  { rewrite <- V1, <- Rmult_minus_distr_r, Rabs_mult.
    rewrite (Rabs_pos_eq (pow2 e1)) by (left; apply pow2_pos).
    rewrite <- He1. pose proof (pow2_pos e1).
    pose proof (Rabs_pos (IZR m2 - t / pow2 (e1 - e))). nra. }
  assert (Vex : l = loc_Exact -> e = fexp prec emax (Zdigits2 m + e) ->
                m2 = m1 /\ IZR m2 * pow2 e1 = t * pow2 e).
  { intros Hl Hee. specialize (EX Hl Hee). fold l1 in EX.
    specialize (X2 EX). split; [assumption|].
    rewrite <- V1, X2. rewrite EX in L1. cbn [located] in L1.
    now rewrite L1. }
  destruct (shr_fexp_exact_cases m2 e1) as [C0 C1].
  set (n := (fexp prec emax (Zdigits2 m2 + e1) - e1)%Z) in *.
  assert (Hn : (n <= 1)%Z) by (subst n; unfold_fexp; lia).
  destruct (Z_le_gt_dec n 0) as [Hn0|Hn1].
  - (* no renormalisation *)
    rewrite (C0 Hn0). cbn [shr_m].
    exists m2, e1. split; [reflexivity|]. split; [lia|].
    split; [|split; [|split]].
    + intros Hm2. subst n. unfold_fexp. lia.
    + unfold_fexp. lia.
    + exact Verr.
    + intros Hl Hee. now apply Vex.
  - (* a carry: one more shift, of an even significand *)
    assert (Hn1' : n = 1%Z) by lia.
    assert (Hd1 : (Zdigits2 m2 = Zdigits2 m1 + 1 /\ 0 < Zdigits2 m1)%Z)
      by (subst n; unfold_fexp; lia).
    destruct Hd1 as [Hd2 Hd1].
    assert (Hm1 : (0 < m1)%Z) by now apply Zdigits2_pos_inv.
    assert (Hm2 : m2 = (m1 + 1)%Z).
    { destruct (Z.eq_dec m2 m1) as [Heq|Hne]; [rewrite Heq in Hd2; lia|lia]. }
    destruct m1 as [|p1|p1] eqn:Em1; try lia.
    assert (Hm2' : m2 = Zpos (Pos.succ p1)) by lia.
    rewrite Hm2' in Hd2. cbn [Zdigits2] in Hd2.
    destruct (digits_carry_even p1 ltac:(lia)) as [q Hq].
    rewrite (C1 Hn1'), Hm2', Hq. cbn [shr_1 shr_m orb].
    assert (Vq : IZR (Zpos q) * pow2 (e1 + 1) = IZR m2 * pow2 e1).
    { rewrite Hm2', Hq, pow2_succ, (IZR_POS_xO q). ring. }
    exists (Zpos q), (e1 + 1)%Z. split; [reflexivity|]. split; [lia|].
    split; [|split; [|split]].
    + intros _. rewrite Hq in Hd2. cbn [digits2_pos] in Hd2.
      subst n. rewrite Hm2', Hq in Hn1'. cbn [Zdigits2 digits2_pos] in *.
      unfold_fexp. lia.
    + subst n. rewrite Hm2' in Hn1'. cbn [Zdigits2] in *.
      unfold_fexp. lia.
    + rewrite Vq. exact Verr.
    + intros Hl Hee. destruct (Vex Hl Hee) as [Heq _]. lia.
Qed.

End RoundValue.

Section RoundCorrect.
Local Open Scope R_scope.
Variables prec emax : Z.
Hypothesis format_ok : supported_format prec emax = true.

Ltac unfold_fexp :=
  unfold fexp, emin in *;
  change IntDef.Z.max with Z.max in *;
  change IntDef.Z.min with Z.min in *.

Local Abbreviation fmt := (@supported_format_spec prec emax format_ok).

Lemma cond_Ropp_abs (s : bool) (w : R) : Rabs (cond_Ropp s w) = Rabs w.
Proof. destruct s; cbn; [apply Rabs_Ropp|reflexivity]. Qed.

Lemma representable_finite (s : bool) (m : positive) (e : Z) :
  representable prec emax (S754_finite s m e) = true <->
  (e = fexp prec emax (Zpos (digits2_pos m) + e) /\ e <= emax - prec)%Z.
Proof.
  unfold representable, valid_binary, bounded, canonical_mantissa.
  cbn [is_finite andb].
  rewrite andb_true_iff, Z.eqb_eq, Z.leb_le.
  change IntDef.Z.add with Z.add. change IntDef.Z.sub with Z.sub.
  intuition lia.
Qed.

(** [binary_round_aux] on a value below [2^(emax-1)]: the result is a number
    of the format, of the sign asked for, within half a unit of [fexp D]. *)
Lemma binary_round_aux_correct (s : bool) (m e : Z) (l : location) (t : R) :
  (0 <= m)%Z -> located t m l ->
  (e <= fexp prec emax (Zdigits2 m + e))%Z ->
  t * pow2 e < pow2 (emax - 1) ->
  exists w : R,
    0 <= w /\
    B2R (binary_round_aux prec emax s m e l) = cond_Ropp s w /\
    representable prec emax (binary_round_aux prec emax s m e l) = true /\
    signed s (binary_round_aux prec emax s m e l) /\
    Rabs (w - t * pow2 e) <= pow2 (fexp prec emax (Zdigits2 m + e)) / 2 /\
    (l = loc_Exact -> e = fexp prec emax (Zdigits2 m + e) ->
     w = t * pow2 e).
Proof.
  intros Hm Ht He Hv. destruct fmt as (Hp & Hpe & He65).
  destruct (@binary_round_aux_value prec emax Hp s m e l t Hm Ht He)
    as (m3 & e3 & Hz & Hm3 & Hcan & He3 & Herr & Hex).
  assert (HD : (Zdigits2 m + e + 1 <= emax)%Z).
  { destruct (Z.eq_dec m 0) as [->|Hne].
    - cbn [Zdigits2] in *. unfold_fexp. lia.
    - destruct (@Zdigits2_bounds m ltac:(lia)) as [Hlo _].
      assert (Htm : IZR m <= t).
      { destruct l as [|[]]; cbn [located] in Ht; lra. }
      pose proof (pow2_pos e).
      assert (pow2 (Zdigits2 m - 1 + e) < pow2 (emax - 1)).
      { rewrite pow2_add. nra. }
      apply pow2_lt_inv in H0. lia. }
  exists (IZR m3 * pow2 e3).
  assert (Hw : 0 <= IZR m3 * pow2 e3).
  { apply Rmult_le_pos; [now apply IZR_le|left; apply pow2_pos]. }
  rewrite Hz.
  destruct m3 as [|p3|p3]; try lia.
  - split; [assumption|]. split; [destruct s; cbn; lra|].
    split; [reflexivity|]. split; [reflexivity|]. split; assumption.
  - assert (Hle : (e3 <= emax - prec)%Z) by (unfold_fexp; lia).
    replace (e3 <=? emax - prec)%Z with true by (symmetry; now apply Z.leb_le).
    split; [assumption|]. split; [reflexivity|].
    split; [|split; [reflexivity|split; assumption]].
    apply representable_finite. split; [|assumption].
    apply Hcan. discriminate.
Qed.

Lemma iter_xO_value (m d : positive) :
  IZR (Zpos (Pos.iter xO m d)) = IZR (Zpos m) * pow2 (Zpos d).
Proof.
  induction d as [|d IH] using Pos.peano_ind.
  - cbn [Pos.iter]. rewrite (IZR_POS_xO m), pow2_1. ring.
  - rewrite Pos.iter_succ, (IZR_POS_xO (Pos.iter xO m d)), IH.
    rewrite Pos2Z.inj_succ. unfold Z.succ. rewrite pow2_succ. ring.
Qed.

Lemma shl_align_spec (m : positive) (e e' : Z) :
  IZR (Zpos (fst (shl_align m e e'))) * pow2 (snd (shl_align m e e'))
  = IZR (Zpos m) * pow2 e /\
  snd (shl_align m e e') = Z.min e e' /\
  (Zpos (digits2_pos (fst (shl_align m e e'))) + snd (shl_align m e e')
   = Zpos (digits2_pos m) + e)%Z.
Proof.
  unfold shl_align. change (IntDef.Z.sub e' e) with (e' - e)%Z.
  destruct (e' - e)%Z as [|d|d] eqn:Ed; cbn [fst snd].
  - repeat split; lia.
  - repeat split; lia.
  - split; [|split].
    + rewrite iter_xO_value. replace e with (e' + Zpos d)%Z by lia.
      rewrite pow2_add. ring.
    + lia.
    + rewrite digits2_pos_iter_xO. lia.
Qed.

(** Rounding an integer multiple of [2^e], [e >= emin]: the error is
    relative, there is no underflow. *)
Lemma binary_round_correct (s : bool) (m : positive) (e : Z) :
  (emin prec emax <= e)%Z ->
  IZR (Zpos m) * pow2 e < pow2 (emax - 1) ->
  exists w : R,
    0 <= w /\
    B2R (binary_round prec emax s m e) = cond_Ropp s w /\
    representable prec emax (binary_round prec emax s m e) = true /\
    Rabs (w - IZR (Zpos m) * pow2 e)
    <= pow2 (- prec) * (IZR (Zpos m) * pow2 e).
Proof.
  intros He Hv. unfold binary_round.
  pose proof (shl_align_spec m e
                (fexp prec emax (Zpos (digits2_pos m) + e))) as (Hval & Hmin & Hdig).
  change (IntDef.Z.add (Zpos (digits2_pos m)) e)
    with (Zpos (digits2_pos m) + e)%Z.
  destruct (shl_align m e (fexp prec emax (Zpos (digits2_pos m) + e)))
    as [mz ez]. cbn [fst snd] in *.
  assert (HD : (Zdigits2 (Zpos mz) + ez = Zpos (digits2_pos m) + e)%Z)
    by exact Hdig.
  destruct (@binary_round_aux_correct s (Zpos mz) ez loc_Exact
              (IZR (Zpos mz)) ltac:(lia) eq_refl
              ltac:(rewrite HD; lia) ltac:(rewrite Hval; exact Hv))
    as (w & Hw & HB & Hrep & _ & Herr & Hex).
  exists w. split; [assumption|]. split; [assumption|].
  split; [assumption|].
  rewrite Hval, HD in *.
  set (D := (Zpos (digits2_pos m) + e)%Z) in *.
  assert (Hvpos : 0 < IZR (Zpos m) * pow2 e).
  { apply Rmult_lt_0_compat; [now apply IZR_lt|apply pow2_pos]. }
  pose proof (pow2_pos (- prec)) as Hu.
  destruct (Z_le_gt_dec (fexp prec emax D) e) as [Hle|Hgt].
  - rewrite (Hex eq_refl ltac:(lia)).
    replace (IZR (Zpos m) * pow2 e - IZR (Zpos m) * pow2 e) with 0 by ring.
    rewrite Rabs_R0. nra.
  - eapply Rle_trans; [exact Herr|].
    assert (HfD : fexp prec emax D = (D - prec)%Z) by (unfold_fexp; lia).
    rewrite HfD.
    replace (D - prec)%Z with ((D - 1) + - prec + 1)%Z by lia.
    rewrite pow2_succ, pow2_add.
    destruct (digits2_pos_bounds m) as [Hlo _].
    assert (pow2 (D - 1) <= IZR (Zpos m) * pow2 e).
    { subst D.
      replace (Zpos (digits2_pos m) + e - 1)%Z
        with ((Zpos (digits2_pos m) - 1) + e)%Z by lia.
      rewrite pow2_add. pose proof (pow2_pos e). nra. }
    nra.
Qed.

Lemma binary_normalize_correct (M e : Z) :
  (emin prec emax <= e)%Z ->
  Rabs (IZR M * pow2 e) < pow2 (emax - 1) ->
  representable prec emax (binary_normalize prec emax M e false) = true /\
  Rabs (B2R (binary_normalize prec emax M e false) - IZR M * pow2 e)
  <= pow2 (- prec) * Rabs (IZR M * pow2 e).
Proof.
  intros He Hv. pose proof (pow2_pos e) as Hpe.
  destruct M as [|p|p]; cbn [binary_normalize].
  - split; [reflexivity|]. cbn [B2R]. rewrite Rmult_0_l, Rminus_diag.
    rewrite Rabs_R0. lra.
  - assert (Hvp : 0 < IZR (Zpos p) * pow2 e).
    { apply Rmult_lt_0_compat; [now apply IZR_lt|assumption]. }
    rewrite (Rabs_pos_eq (IZR (Zpos p) * pow2 e)) in * by lra.
    destruct (binary_round_correct false p He Hv)
      as (w & Hw & HB & Hrep & Herr).
    split; [assumption|]. rewrite HB. exact Herr.
  - assert (Hvp : 0 < IZR (Zpos p) * pow2 e).
    { apply Rmult_lt_0_compat; [now apply IZR_lt|assumption]. }
    assert (Hneg : IZR (Zneg p) * pow2 e = - (IZR (Zpos p) * pow2 e)).
    { change (Zneg p) with (- Zpos p)%Z. rewrite opp_IZR. ring. }
    rewrite Hneg, Rabs_Ropp in *.
    rewrite (Rabs_pos_eq (IZR (Zpos p) * pow2 e)) in * by lra.
    destruct (binary_round_correct true p He Hv)
      as (w & Hw & HB & Hrep & Herr).
    split; [assumption|]. rewrite HB. cbn [cond_Ropp].
    replace (- w - - (IZR (Zpos p) * pow2 e))
      with (- (w - IZR (Zpos p) * pow2 e)) by ring.
    now rewrite Rabs_Ropp.
Qed.

End RoundCorrect.

(** ** The four operations on numbers of the format *)

Section OperationsCorrect.
Local Open Scope R_scope.
Variables prec emax : Z.
Hypothesis format_ok : supported_format prec emax = true.

Ltac unfold_fexp :=
  unfold fexp, emin in *;
  change IntDef.Z.max with Z.max in *;
  change IntDef.Z.min with Z.min in *.

Local Abbreviation fmt := (@supported_format_spec prec emax format_ok).
Local Abbreviation repr := (representable prec emax).

Lemma signed_int_value (s : bool) (m : positive) (e : Z) :
  IZR (cond_Zopp s (Zpos m)) * pow2 e = cond_Ropp s (IZR (Zpos m) * pow2 e).
Proof.
  destruct s; cbn [cond_Zopp cond_Ropp]; [|reflexivity].
  change (- Zpos m)%Z with (Zneg m).
  change (Zneg m) with (- Zpos m)%Z. rewrite opp_IZR. ring.
Qed.

Lemma representable_emin (s : bool) (m : positive) (e : Z) :
  repr (S754_finite s m e) = true -> (emin prec emax <= e)%Z.
Proof.
  intros H. apply representable_finite in H. unfold_fexp. lia.
Qed.

Lemma B2R_opp (x : spec_float) : B2R (SFopp x) = - B2R x.
Proof.
  destruct x as [s|s| |s m e]; cbn [SFopp B2R]; try lra.
  destruct s; cbn [negb cond_Ropp]; lra.
Qed.

Lemma representable_opp (x : spec_float) : repr (SFopp x) = repr x.
Proof. now destruct x. Qed.

Lemma SFsub_add_opp (x y : spec_float) :
  SFsub prec emax x y = SFadd prec emax x (SFopp y).
Proof.
  destruct x as [sx|sx| |sx mx ex], y as [sy|sy| |sy my ey];
    try reflexivity; now destruct sx, sy.
Qed.

(** Addition of two numbers of the format whose sum is below [2^(emax-1)]:
    the result is a number of the format within a relative [2^-prec] of the
    sum. *)
Lemma SFadd_correct (x y : spec_float) :
  repr x = true -> repr y = true ->
  Rabs (B2R x + B2R y) < pow2 (emax - 1) ->
  repr (SFadd prec emax x y) = true /\
  Rabs (B2R (SFadd prec emax x y) - (B2R x + B2R y))
  <= pow2 (- prec) * Rabs (B2R x + B2R y).
Proof.
  intros Hx Hy Hv. pose proof (pow2_pos (- prec)) as Hu.
  assert (Hexact : forall z, B2R z = B2R x + B2R y ->
            Rabs (B2R z - (B2R x + B2R y))
            <= pow2 (- prec) * Rabs (B2R x + B2R y)).
  { intros z ->. rewrite Rminus_diag, Rabs_R0.
    pose proof (Rabs_pos (B2R x + B2R y)). nra. }
  destruct x as [sx|sx| |sx mx ex], y as [sy|sy| |sy my ey];
    try discriminate.
  - split; [now destruct sx, sy|].
    apply Hexact. destruct sx, sy; cbn; lra.
  - split; [assumption|]. apply Hexact. cbn. lra.
  - split; [assumption|]. apply Hexact. cbn. lra.
  - cbn [SFadd].
    pose proof (representable_emin _ _ _ Hx) as Hex.
    pose proof (representable_emin _ _ _ Hy) as Hey.
    set (ez := Z.min ex ey).
    destruct (shl_align_spec mx ex ez) as (Vx & Sx & _).
    destruct (shl_align_spec my ey ez) as (Vy & Sy & _).
    assert (Hsum : IZR (cond_Zopp sx (Zpos (fst (shl_align mx ex ez)))
                        + cond_Zopp sy (Zpos (fst (shl_align my ey ez))))
                   * pow2 ez
                   = B2R (S754_finite sx mx ex) + B2R (S754_finite sy my ey)).
    { rewrite plus_IZR, Rmult_plus_distr_r, !signed_int_value.
      cbn [B2R]. rewrite <- Vx, <- Vy, Sx, Sy.
      replace (Z.min ex ez) with ez by (subst ez; lia).
      replace (Z.min ey ez) with ez by (subst ez; lia).
      reflexivity. }
    rewrite <- Hsum in *.
    apply binary_normalize_correct; [assumption|subst ez; lia|assumption].
Qed.

Lemma SFsub_correct (x y : spec_float) :
  repr x = true -> repr y = true ->
  Rabs (B2R x - B2R y) < pow2 (emax - 1) ->
  repr (SFsub prec emax x y) = true /\
  Rabs (B2R (SFsub prec emax x y) - (B2R x - B2R y))
  <= pow2 (- prec) * Rabs (B2R x - B2R y).
Proof.
  intros Hx Hy Hv. rewrite SFsub_add_opp.
  replace (B2R x - B2R y) with (B2R x + B2R (SFopp y)) in *
    by (rewrite B2R_opp; ring).
  apply SFadd_correct; [assumption|now rewrite representable_opp|assumption].
Qed.

(** Half a unit of [fexp D] is a relative [2^-prec] of the value, or half the
    smallest subnormal. *)
Lemma half_ulp_bound (t : R) (m e : Z) (l : location) :
  (0 <= m)%Z -> located t m l ->
  (e <= fexp prec emax (Zdigits2 m + e))%Z ->
  pow2 (fexp prec emax (Zdigits2 m + e)) / 2
  <= pow2 (- prec) * (t * pow2 e) + pow2 (emin prec emax - 1).
Proof.
  intros Hm Ht He. destruct fmt as (Hp & Hpe & He65).
  pose proof (pow2_pos (- prec)) as Hu. pose proof (pow2_pos e) as Hpe'.
  pose proof (pow2_pos (emin prec emax - 1)) as Heta.
  assert (Htm : IZR m <= t).
  { destruct l as [|[]]; cbn [located] in Ht; lra. }
  assert (Hm0 : 0 <= IZR m) by now apply IZR_le.
  set (D := (Zdigits2 m + e)%Z) in *.
  assert (Hmv : IZR m * pow2 e <= t * pow2 e) by nra.
  assert (Hmv0 : 0 <= IZR m * pow2 e) by nra.
  assert (Huv : pow2 (- prec) * (IZR m * pow2 e)
                <= pow2 (- prec) * (t * pow2 e)) by nra.
  assert (Huv0 : 0 <= pow2 (- prec) * (IZR m * pow2 e)) by nra.
  destruct (Z_le_gt_dec (fexp prec emax D) (emin prec emax)) as [Hle|Hgt].
  - assert (HfD : fexp prec emax D = emin prec emax) by (unfold_fexp; lia).
    rewrite HfD, <- pow2_pred. lra.
  - assert (HfD : fexp prec emax D = (D - prec)%Z) by (unfold_fexp; lia).
    assert (Hmpos : (0 < m)%Z).
    { destruct (Z.eq_dec m 0) as [->|]; [|lia].
      subst D. cbn [Zdigits2] in *. unfold_fexp. lia. }
    destruct (Zdigits2_bounds Hmpos) as [Hlo _].
    rewrite HfD, <- pow2_pred.
    replace (D - prec - 1)%Z with ((Zdigits2 m - 1) + e + - prec)%Z
      by (subst D; lia).
    rewrite !pow2_add.
    assert (pow2 (Zdigits2 m - 1) * pow2 e <= IZR m * pow2 e) by nra.
    assert (pow2 (Zdigits2 m - 1) * pow2 e * pow2 (- prec)
            <= pow2 (- prec) * (IZR m * pow2 e)) by nra.
    lra.
Qed.

Lemma digits2_pos_mul (a b : positive) :
  (Zpos (digits2_pos a) + Zpos (digits2_pos b) - 1
   <= Zpos (digits2_pos (a * b)))%Z.
Proof.
  destruct (digits2_pos_bounds a) as [La _].
  destruct (digits2_pos_bounds b) as [Lb _].
  destruct (digits2_pos_bounds (a * b)) as [_ Uab].
  rewrite Pos2Z.inj_mul, mult_IZR in Uab.
  pose proof (pow2_pos (Zpos (digits2_pos a) - 1)).
  pose proof (pow2_pos (Zpos (digits2_pos b) - 1)).
  assert (H1 : pow2 ((Zpos (digits2_pos a) - 1) + (Zpos (digits2_pos b) - 1))
               < pow2 (Zpos (digits2_pos (a * b)))).
  { rewrite pow2_add. nra. }
  apply pow2_lt_inv in H1. lia.
Qed.

Lemma cond_Ropp_mult (sx sy : bool) (a b : R) :
  cond_Ropp sx a * cond_Ropp sy b = cond_Ropp (xorb sx sy) (a * b).
Proof. destruct sx, sy; cbn; ring. Qed.

(** Multiplication: a relative [2^-prec], or half the smallest subnormal
    when the product underflows. *)
Lemma SFmul_correct (x y : spec_float) :
  repr x = true -> repr y = true ->
  Rabs (B2R x * B2R y) < pow2 (emax - 1) ->
  repr (SFmul prec emax x y) = true /\
  Rabs (B2R (SFmul prec emax x y) - B2R x * B2R y)
  <= pow2 (- prec) * Rabs (B2R x * B2R y) + pow2 (emin prec emax - 1).
Proof.
  intros Hx Hy Hv. destruct fmt as (Hp & Hpe & He65).
  pose proof (pow2_pos (- prec)) as Hu.
  pose proof (pow2_pos (emin prec emax - 1)) as Heta.
  assert (Hzero : forall z, B2R z = 0 -> B2R x * B2R y = 0 ->
            Rabs (B2R z - B2R x * B2R y)
            <= pow2 (- prec) * Rabs (B2R x * B2R y)
               + pow2 (emin prec emax - 1)).
  { intros z -> ->. rewrite Rminus_diag, Rabs_R0. lra. }
  destruct x as [sx|sx| |sx mx ex], y as [sy|sy| |sy my ey];
    try discriminate;
    try (split; [reflexivity|apply Hzero; cbn; lra]).
  cbn [SFmul].
  apply representable_finite in Hx, Hy.
  set (m := Zpos (mx * my)). set (e := (ex + ey)%Z).
  assert (Hval : B2R (S754_finite sx mx ex) * B2R (S754_finite sy my ey)
                 = cond_Ropp (xorb sx sy) (IZR m * pow2 e)).
  { cbn [B2R]. rewrite cond_Ropp_mult. f_equal.
    subst m e. rewrite Pos2Z.inj_mul, mult_IZR, pow2_add. ring. }
  rewrite Hval in *. rewrite cond_Ropp_abs in *.
  assert (Hpos : 0 < IZR m * pow2 e).
  { apply Rmult_lt_0_compat; [now apply IZR_lt|apply pow2_pos]. }
  rewrite (Rabs_pos_eq (IZR m * pow2 e)) in * by lra.
  assert (He : (e <= fexp prec emax (Zdigits2 m + e))%Z).
  { pose proof (digits2_pos_mul mx my). subst m e. cbn [Zdigits2].
    unfold_fexp. lia. }
  destruct (@binary_round_aux_correct prec emax format_ok (xorb sx sy) m e
              loc_Exact (IZR m) ltac:(subst m; lia) eq_refl He Hv)
    as (w & Hw & HB & Hrep & _ & Herr & _).
  split; [assumption|]. rewrite HB.
  replace (cond_Ropp (xorb sx sy) w - cond_Ropp (xorb sx sy) (IZR m * pow2 e))
    with (cond_Ropp (xorb sx sy) (w - IZR m * pow2 e))
    by (destruct (xorb sx sy); cbn; ring).
  rewrite cond_Ropp_abs.
  eapply Rle_trans; [exact Herr|].
  apply (@half_ulp_bound (IZR m) m e loc_Exact); [subst m; lia|reflexivity|assumption].
Qed.

(** The location the division computes from the remainder. *)
Lemma new_location_located (nb q r : Z) :
  (0 < nb)%Z -> (0 <= r < nb)%Z ->
  located (IZR q + IZR r / IZR nb) q (new_location nb r).
Proof.
  intros Hnb Hr.
  assert (Hnb' : 0 < IZR nb) by now apply IZR_lt.
  set (x := IZR r / IZR nb).
  assert (Hx : x * IZR nb = IZR r) by (subst x; field; lra).
  assert (Hr0 : 0 <= IZR r) by (apply IZR_le; lia).
  assert (Hr1 : IZR r < IZR nb) by (apply IZR_lt; lia).
  assert (Hcmp : forall c, (2 * r ?= nb)%Z = c ->
            match c with
            | Lt => 2 * IZR r < IZR nb
            | Eq => 2 * IZR r = IZR nb
            | Gt => 2 * IZR r > IZR nb
            end).
  { intros c <-. rewrite <- mult_IZR.
    destruct (Z.compare_spec (2 * r) nb) as [H|H|H].
    - now rewrite H.
    - now apply IZR_lt.
    - now apply IZR_lt. }
  assert (Hx0 : r = 0%Z -> x = 0).
  { intros ->. subst x. unfold Rdiv. ring. }
  unfold new_location. change IntDef.Z.even with Z.even.
  destruct (Z.even nb) eqn:Ev;
    unfold new_location_even, new_location_odd;
    change (IntDef.Z.mul 2 r) with (2 * r)%Z;
    change (IntDef.Z.add (2 * r) 1) with (2 * r + 1)%Z;
    destruct (Z.eqb_spec r 0) as [Hr00|Hne];
    try (specialize (Hx0 Hr00); cbn [located]; lra).
  - assert (Hrp : 0 < IZR r) by (apply IZR_lt; lia).
    specialize (Hcmp _ eq_refl).
    destruct (2 * r ?= nb)%Z; cbn [located]; nra.
  - assert (Hrp : 0 < IZR r) by (apply IZR_lt; lia).
    assert (Hodd : (2 * r <> nb)%Z).
    { intros <-. rewrite Z.even_mul in Ev. discriminate. }
    destruct (Z.compare_spec (2 * r + 1) nb) as [H|H|H];
      cbn [located].
    + assert (2 * IZR r < IZR nb)
        by (rewrite <- mult_IZR; apply IZR_lt; lia). nra.
    + assert (2 * IZR r < IZR nb)
        by (rewrite <- mult_IZR; apply IZR_lt; lia). nra.
    + assert (IZR nb < 2 * IZR r)
        by (rewrite <- mult_IZR; apply IZR_lt; lia). nra.
Qed.

Lemma cond_Ropp_div (sx sy : bool) (a b : R) :
  b <> 0 -> cond_Ropp sx a / cond_Ropp sy b = cond_Ropp (xorb sx sy) (a / b).
Proof. intros Hb. destruct sx, sy; cbn; field; lra. Qed.

(** Division by a finite non-zero number: a relative [2^-prec], or half the
    smallest subnormal when the quotient underflows. *)
Lemma SFdiv_correct (x : spec_float) (sy : bool) (my : positive) (ey : Z) :
  repr x = true ->
  Rabs (B2R x / B2R (S754_finite sy my ey)) < pow2 (emax - 1) ->
  repr (SFdiv prec emax x (S754_finite sy my ey)) = true /\
  Rabs (B2R (SFdiv prec emax x (S754_finite sy my ey))
        - B2R x / B2R (S754_finite sy my ey))
  <= pow2 (- prec) * Rabs (B2R x / B2R (S754_finite sy my ey))
     + pow2 (emin prec emax - 1).
Proof.
  intros Hx Hv. destruct fmt as (Hp & Hpe & He65).
  pose proof (pow2_pos (- prec)) as Hu.
  pose proof (pow2_pos (emin prec emax - 1)) as Heta.
  assert (Hypos : 0 < IZR (Zpos my) * pow2 ey).
  { apply Rmult_lt_0_compat; [now apply IZR_lt|apply pow2_pos]. }
  destruct x as [sx|sx| |sx mx ex]; try discriminate.
  - split; [reflexivity|]. cbn [SFdiv B2R]. unfold Rdiv.
    rewrite Rmult_0_l, Rminus_diag, Rabs_R0. lra.
  - cbn [SFdiv]. unfold SFdiv_core_binary.
    change (IntDef.Z.sub ?a ?b) with (a - b)%Z.
    change (IntDef.Z.add ?a ?b) with (a + b)%Z.
    change (IntDef.Z.min ?a ?b) with (Z.min a b).
    cbn [Zdigits2].
    set (d1 := Zpos (digits2_pos mx)). set (d2 := Zpos (digits2_pos my)).
    set (e' := Z.min (fexp prec emax (d1 + ex - (d2 + ey))) (ex - ey)).
    set (sh := (ex - ey - e')%Z).
    assert (Hsh : (0 <= sh)%Z) by (subst sh e'; lia).
    set (m' := match sh with
               | 0%Z => Zpos mx
               | Zpos _ => Z.shiftl (Zpos mx) sh
               | Zneg _ => 0%Z
               end).
    assert (Hm' : m' = (Zpos mx * 2 ^ sh)%Z).
    { subst m'. destruct sh as [|p|p]; try lia.
      now rewrite Z.shiftl_mul_pow2. }
    assert (Hm'R : IZR m' = IZR (Zpos mx) * pow2 sh).
    { rewrite Hm', mult_IZR, pow2_IZR by assumption. reflexivity. }
    pose proof (Z_div_mod m' (Zpos my) ltac:(lia)) as Hdm.
    destruct (Z.div_eucl m' (Zpos my)) as [q r]. destruct Hdm as [Hdm Hr].
    assert (Hmypos : 0 < IZR (Zpos my)) by now apply IZR_lt.
    assert (Hmxpos : 0 < IZR (Zpos mx)) by now apply IZR_lt.
    assert (Hq : (0 <= q)%Z) by nia.
    set (t := IZR q + IZR r / IZR (Zpos my)).
    assert (Ht : t = IZR m' / IZR (Zpos my)).
    { subst t. rewrite Hdm, plus_IZR, mult_IZR. field. lra. }
    assert (Hloc : located t q (new_location (Zpos my) r))
      by (apply new_location_located; lia).
    assert (Hval : t * pow2 e'
                   = IZR (Zpos mx) * pow2 ex / (IZR (Zpos my) * pow2 ey)).
    { rewrite Ht, Hm'R.
      assert (Hex : pow2 ex = pow2 sh * pow2 e' * pow2 ey).
      { rewrite <- !pow2_add. f_equal. subst sh. lia. }
      rewrite Hex. pose proof (pow2_pos ey). field. lra. }
    assert (HB : B2R (S754_finite sx mx ex) / B2R (S754_finite sy my ey)
                 = cond_Ropp (xorb sx sy) (t * pow2 e')).
    { cbn [B2R]. rewrite cond_Ropp_div by lra. now rewrite Hval. }
    rewrite HB in *. rewrite cond_Ropp_abs in *.
    assert (Htpos : 0 <= t * pow2 e').
    { rewrite Hval. apply Rmult_le_pos;
        [apply Rmult_le_pos; [lra|left; apply pow2_pos]|].
      left. apply Rinv_0_lt_compat. lra. }
    rewrite (Rabs_pos_eq (t * pow2 e')) in * by assumption.
    assert (He : (e' <= fexp prec emax (Zdigits2 q + e'))%Z).
    { destruct (Z_le_gt_dec e' (emin prec emax)) as [Hle|Hgt];
        [unfold_fexp; lia|].
      set (k := (d1 + sh - d2)%Z).
      assert (Hk : (prec <= k)%Z) by (subst k sh e'; unfold_fexp; lia).
      destruct (digits2_pos_bounds mx) as [Lx _].
      destruct (digits2_pos_bounds my) as [_ Uy].
      fold d1 in Lx. fold d2 in Uy.
      assert (H1 : IZR m' < IZR (Zpos my) * (IZR q + 1)).
      { rewrite <- (plus_IZR q 1), <- mult_IZR. apply IZR_lt. nia. }
      assert (H2 : pow2 (k - 1) * pow2 d2 <= IZR m').
      { rewrite Hm'R, <- pow2_add.
        replace (k - 1 + d2)%Z with ((d1 - 1) + sh)%Z by (subst k; lia).
        rewrite pow2_add. pose proof (pow2_pos sh). nra. }
      pose proof (pow2_pos d2). pose proof (pow2_pos (k - 1)).
      assert (H3 : pow2 (k - 1) < IZR q + 1).
      { assert (0 <= IZR q) by now apply IZR_le. nra. }
      rewrite <- pow2_IZR, <- (plus_IZR q 1) in H3 by lia.
      apply lt_IZR in H3.
      assert (H4 : (2 ^ (k - 1) <= q)%Z) by lia.
      assert (Hqpos : (0 < q)%Z).
      { pose proof (Z.pow_pos_nonneg 2 (k - 1) ltac:(lia) ltac:(lia)). lia. }
      destruct (Zdigits2_bounds Hqpos) as [_ Uq].
      apply IZR_le in H4. rewrite pow2_IZR in H4 by lia.
      assert (H5 : pow2 (k - 1) < pow2 (Zdigits2 q)) by lra.
      apply pow2_lt_inv in H5.
      subst k sh e'. unfold_fexp. lia. }
    destruct (@binary_round_aux_correct prec emax format_ok (xorb sx sy) q e'
                (new_location (Zpos my) r) t Hq Hloc He Hv)
      as (w & Hw & HBw & Hrep & _ & Herr & _).
    split; [assumption|]. rewrite HBw.
    replace (cond_Ropp (xorb sx sy) w - cond_Ropp (xorb sx sy) (t * pow2 e'))
      with (cond_Ropp (xorb sx sy) (w - t * pow2 e'))
      by (destruct (xorb sx sy); cbn; ring).
    rewrite cond_Ropp_abs.
    eapply Rle_trans; [exact Herr|].
    now apply (@half_ulp_bound t q e' (new_location (Zpos my) r)).
Qed.

End OperationsCorrect.

(** ** The identity remap in floating point *)

Section Remap5Tolerance.
Local Open Scope R_scope.
Variables prec emax : Z.
Hypothesis format_ok : supported_format prec emax = true.
Hypothesis prec_ge_2 : (2 <= prec)%Z.

Local Abbreviation repr := (representable prec emax).
Local Abbreviation u := (pow2 (- prec)).
Local Abbreviation eta := (pow2 (emin prec emax - 1)).

Lemma format_constants :
  0 < u <= / 4 /\ 0 < eta /\ 8 * eta <= u /\ 1 <= pow2 (emax - 3) /\
  pow2 (emax - 1) = 4 * pow2 (emax - 3) /\ pow2 (3 - prec) = 8 * u /\
  pow2 (emin prec emax) = 2 * eta.
Proof.
  destruct (@supported_format_spec prec emax format_ok) as (Hp & Hpe & He65).
  assert (H2 : pow2 2 = 4).
  { change 2%Z with (1 + 1)%Z. rewrite pow2_succ, pow2_1. lra. }
  assert (H3 : pow2 3 = 8).
  { change 3%Z with (2 + 1)%Z. rewrite pow2_succ, H2. lra. }
  assert (Hm2 : pow2 (-2) = / 4).
  { pose proof (pow2_add (-2) 2) as H. change (-2 + 2)%Z with 0%Z in H.
    rewrite pow2_0, H2 in H. lra. }
  assert (Hm3 : pow2 (-3) = / 8).
  { pose proof (pow2_add (-3) 3) as H. change (-3 + 3)%Z with 0%Z in H.
    rewrite pow2_0, H3 in H. lra. }
  pose proof (pow2_pos (- prec)) as Hu.
  pose proof (pow2_pos (emin prec emax - 1)) as Heta.
  split; [split; [assumption|]|].
  { rewrite <- Hm2. apply pow2_le. lia. }
  split; [assumption|]. split.
  { assert (H : eta <= pow2 (- prec + -3)) by (apply pow2_le; unfold emin; lia).
    rewrite pow2_add, Hm3 in H. lra. }
  split; [apply pow2_ge_1; lia|]. split.
  { replace (emax - 1)%Z with (emax - 3 + 2)%Z by lia.
    rewrite pow2_add, H2. lra. }
  split.
  { replace (3 - prec)%Z with (- prec + 3)%Z by lia.
    rewrite pow2_add, H3. lra. }
  replace (emin prec emax) with (emin prec emax - 1 + 1)%Z at 1 by lia.
  rewrite pow2_succ. reflexivity.
Qed.

Lemma Rabs_bounds (e b : R) : Rabs e <= b -> - b <= e <= b.
Proof. intros H. unfold Rabs in H. destruct (Rcase_abs e); lra. Qed.

Lemma Rabs_of_bounds (e b : R) : - b <= e <= b -> Rabs e <= b.
Proof. intros H. unfold Rabs. destruct (Rcase_abs e); lra. Qed.

Lemma Rabs_of_strict_bounds (e b : R) : - b < e < b -> Rabs e < b.
Proof. intros H. unfold Rabs. destruct (Rcase_abs e); lra. Qed.

Lemma scaled_bounds (e b c : R) :
  0 <= c -> - b <= e <= b -> - (b * c) <= e * c <= b * c.
Proof. intros Hc [H1 H2]. split; nra. Qed.

(** For finite [lo < hi] of magnitude at most [2^(emax-3)] and [x] in
    [[lo, hi]], the remap onto the same range is a finite number within
    [2^(3-prec) (hi - lo) + 2^-prec |x| + 2^emin] of [x]. *)
Lemma remap5_tolerance (x lo hi : spec_float) :
  repr x = true -> repr lo = true -> repr hi = true ->
  B2R lo < B2R hi -> B2R lo <= B2R x <= B2R hi ->
  Rabs (B2R lo) <= pow2 (emax - 3) -> Rabs (B2R hi) <= pow2 (emax - 3) ->
  repr (remap5 (FT := IEEE_FloatType prec emax) x lo hi lo hi) = true /\
  Rabs (B2R (remap5 (FT := IEEE_FloatType prec emax) x lo hi lo hi) - B2R x)
  <= pow2 (3 - prec) * (B2R hi - B2R lo) + pow2 (- prec) * Rabs (B2R x)
     + pow2 (emin prec emax).
Proof.
  intros Hx Hlo Hhi Hlt Hin HML HMH.
  destruct format_constants as ((Hu0 & Hu4) & Heta & Heta8 & HM1 & HT & H8u & H2eta).
  rewrite H8u, H2eta.
  unfold remap5, remap. cbn [fsub fdiv fmul fadd IEEE_FloatType].
  apply Rabs_bounds in HML, HMH.
  set (L := B2R lo) in *. set (H := B2R hi) in *. set (X := B2R x) in *.
  set (M := pow2 (emax - 3)) in *. set (T := pow2 (emax - 1)) in *.
  assert (HabsX : - Rabs X <= X <= Rabs X).
  { unfold Rabs. destruct (Rcase_abs X); lra. }
  assert (HXM : Rabs X <= M) by (apply Rabs_of_bounds; lra).
  (* d = hi - lo *)
  assert (HD : Rabs (H - L) = H - L) by (apply Rabs_pos_eq; lra).
  destruct (@SFsub_correct prec emax format_ok hi lo Hhi Hlo) as [Hd Ed].
  { fold H L T. rewrite HD. lra. }
  fold H L in Ed. rewrite HD in Ed. apply Rabs_bounds in Ed.
  set (d := SFsub prec emax hi lo) in *. set (Bd := B2R d) in *.
  set (D := H - L) in *.
  assert (HD0 : 0 < D <= 2 * M) by (unfold D; lra).
  assert (HuD : 0 <= u * D <= D / 4) by (split; nra).
  assert (HBd : 0 < Bd) by lra.
  destruct d as [sd|sd| |sd md ed] eqn:Hdeq;
    try (exfalso; cbn [B2R] in Bd; subst Bd; lra).
  (* a = x - lo *)
  assert (HA : Rabs (X - L) = X - L) by (apply Rabs_pos_eq; lra).
  destruct (@SFsub_correct prec emax format_ok x lo Hx Hlo) as [Ha Ea].
  { fold X L T. rewrite HA. lra. }
  fold X L in Ea. rewrite HA in Ea. apply Rabs_bounds in Ea.
  set (a := SFsub prec emax x lo) in *. set (Ba := B2R a) in *.
  set (A := X - L) in *.
  assert (HA0 : 0 <= A <= D) by (unfold A, D; lra).
  assert (HuA : 0 <= u * A <= u * D) by (split; nra).
  assert (HBa : 0 <= Ba) by nra.
  (* n = a / d *)
  set (N := Ba / Bd).
  assert (HNd : N * Bd = Ba) by (subst N; field; lra).
  assert (HN0 : 0 <= N).
  { subst N. apply Rmult_le_pos; [assumption|].
    left. apply Rinv_0_lt_compat. assumption. }
  assert (HN2 : N <= 2).
  { destruct (Rle_or_lt N 2) as [|Hgt]; [assumption|exfalso].
    assert (2 * Bd < N * Bd) by (apply Rmult_lt_compat_r; assumption).
    lra. }
  destruct (@SFdiv_correct prec emax format_ok a sd md ed Ha) as [Hn En].
  { fold Ba Bd N T. rewrite Rabs_pos_eq by assumption. lra. }
  fold Ba Bd N in En. rewrite (Rabs_pos_eq N) in En by assumption.
  apply Rabs_bounds in En.
  set (n := SFdiv prec emax a (S754_finite sd md ed)) in *.
  set (Bn := B2R n) in *.
  (* p = n * d *)
  assert (E3 : - ((u * N + eta) * Bd) <= (Bn - N) * Bd <= (u * N + eta) * Bd).
  { apply scaled_bounds; [lra|assumption]. }
  assert (HetaBd : 0 <= eta * Bd <= u * D * (5 / 32)).
  { split; [nra|]. assert (Bd <= D * (5 / 4)) by lra.
    assert (eta * Bd <= eta * (D * (5 / 4)))
      by (apply Rmult_le_compat_l; lra).
    assert (eta * (D * (5 / 4)) <= u / 8 * (D * (5 / 4)))
      by (apply Rmult_le_compat_r; lra).
    lra. }
  assert (HuBa : 0 <= u * Ba <= u * D * (5 / 4)).
  { split; [nra|]. assert (Ba <= D * (5 / 4)) by lra.
    assert (u * Ba <= u * (D * (5 / 4))) by (apply Rmult_le_compat_l; lra).
    lra. }
  assert (E3' : - (u * D * (45 / 32)) <= Bn * Bd - Ba <= u * D * (45 / 32)).
  { replace (Bn * Bd - Ba) with ((Bn - N) * Bd) by (rewrite <- HNd; ring).
    replace ((u * N + eta) * Bd) with (u * Ba + eta * Bd) in E3
      by (rewrite <- HNd; ring).
    lra. }
  set (P := Bn * Bd) in *.
  assert (HP : - (D * (205 / 128)) <= P <= D * (205 / 128)) by lra.
  assert (HabsP : Rabs P <= D * (205 / 128)) by (apply Rabs_of_bounds; lra).
  destruct (@SFmul_correct prec emax format_ok n (S754_finite sd md ed) Hn Hd)
    as [Hp Ep].
  { fold Bn Bd P T. lra. }
  fold Bn Bd P in Ep.
  assert (Ep' : Rabs (B2R (SFmul prec emax n (S754_finite sd md ed)) - P)
                <= u * D * (205 / 128) + eta).
  { eapply Rle_trans; [exact Ep|].
    assert (u * Rabs P <= u * (D * (205 / 128)))
      by (apply Rmult_le_compat_l; lra).
    lra. }
  clear Ep. apply Rabs_bounds in Ep'.
  set (p := SFmul prec emax n (S754_finite sd md ed)) in *.
  set (Bp := B2R p) in *.
  (* r = p + lo *)
  set (S := Bp + L).
  assert (HS : - (u * D * (513 / 128) + eta) <= S - X
               <= u * D * (513 / 128) + eta).
  { unfold S, A in *. lra. }
  assert (HabsS : Rabs S <= Rabs X + (u * D * (513 / 128) + eta)).
  { apply Rabs_of_bounds. lra. }
  destruct (@SFadd_correct prec emax format_ok p lo Hp Hlo) as [Hr Er].
  { fold Bp L S T. lra. }
  fold Bp L S in Er. split; [assumption|].
  assert (Er' : Rabs (B2R (SFadd prec emax p lo) - S)
                <= u * Rabs X + u * D * (513 / 512) + eta / 4).
  { eapply Rle_trans; [exact Er|].
    assert (u * Rabs S <= u * (Rabs X + (u * D * (513 / 128) + eta)))
      by (apply Rmult_le_compat_l; lra).
    assert (u * (u * D * (513 / 128)) <= / 4 * (u * D * (513 / 128)))
      by (apply Rmult_le_compat_r; lra).
    assert (u * eta <= / 4 * eta) by (apply Rmult_le_compat_r; lra).
    lra. }
  apply Rabs_bounds in Er'. apply Rabs_of_bounds. lra.
Qed.

End Remap5Tolerance.

(** ** [remap] with identical ranges *)

Lemma remap5_overflow (prec emax : Z) (x lo hi : spec_float) (s : bool) :
  SFsub prec emax hi lo = S754_infinity s ->
  remap5 (FT := IEEE_FloatType prec emax) x lo hi lo hi = S754_nan.
Proof.
  intros Hinf. unfold remap5, remap. cbn [fsub fdiv fmul fadd IEEE_FloatType].
  rewrite Hinf.
  destruct (SFsub prec emax x lo) as [sa|sa| |sa ma ea]; reflexivity.
Qed.

(** C7, as the code has it: in exact arithmetic normalising from
    [[lo, hi]] and rescaling to the same range gives [x] back exactly, for
    every [x] and [lo <> hi]; in IEEE arithmetic of at least two bits of
    precision, for finite [lo < hi] of magnitude at most [2^(emax-3)] and
    every [x] in [[lo, hi]], the result is a finite number within
    [2^(3-prec) (hi - lo) + 2^-prec |x| + 2^emin] of [x]; and the
    normalisation is lost as soon as [hi - lo] overflows: the result is then
    NaN whatever [x]. *)
Theorem remap5_same_range :
  (forall x lo hi : R, lo <> hi -> remap5 x lo hi lo hi = x) /\
  (forall (prec emax : Z) (x lo hi : spec_float),
      supported_format prec emax = true -> (2 <= prec)%Z ->
      representable prec emax x = true ->
      representable prec emax lo = true ->
      representable prec emax hi = true ->
      (B2R lo < B2R hi)%R -> (B2R lo <= B2R x <= B2R hi)%R ->
      (Rabs (B2R lo) <= pow2 (emax - 3))%R ->
      (Rabs (B2R hi) <= pow2 (emax - 3))%R ->
      representable prec emax
        (remap5 (FT := IEEE_FloatType prec emax) x lo hi lo hi) = true /\
      (Rabs (B2R (remap5 (FT := IEEE_FloatType prec emax) x lo hi lo hi)
             - B2R x)
       <= pow2 (3 - prec) * (B2R hi - B2R lo) + pow2 (- prec) * Rabs (B2R x)
          + pow2 (emin prec emax))%R) /\
  (forall (prec emax : Z) (x lo hi : spec_float) (s : bool),
      SFsub prec emax hi lo = S754_infinity s ->
      remap5 (FT := IEEE_FloatType prec emax) x lo hi lo hi = S754_nan).
Proof.
  split; [|split].
  - apply remap5_same_range_R.
  - intros prec emax x lo hi Hfmt Hprec. now apply remap5_tolerance.
  - apply remap5_overflow.
Qed.

Lemma B2R_scaled (p : positive) (k n : Z) :
  (0 <= k)%Z -> Zpos p = (n * 2 ^ k)%Z ->
  B2R (S754_finite false p (- k)) = IZR n.
Proof.
  intros Hk Hp. cbn [B2R cond_Ropp].
  rewrite Hp, mult_IZR, pow2_IZR, Rmult_assoc, <- pow2_add by assumption.
  rewrite Z.add_opp_diag_r, pow2_0. ring.
Qed.

Lemma B2R_b64_1 : B2R (b64 1) = 1%R.
Proof.
  replace (b64 1) with (S754_finite false 4503599627370496 (- (52)))
    by (vm_compute; reflexivity).
  apply B2R_scaled; [lia|reflexivity].
Qed.

Lemma B2R_b64_49 : B2R (b64 49) = 49%R.
Proof.
  replace (b64 49) with (S754_finite false 6896136929411072 (- (47)))
    by (vm_compute; reflexivity).
  apply B2R_scaled; [lia|reflexivity].
Qed.

Lemma remap5_same_range_witness :
  1%R <> 3%R /\
  (supported_format 53 1024 = true /\ (2 <= 53)%Z /\
   representable 53 1024 (b64 1) = true /\
   representable 53 1024 (b64 0) = true /\
   representable 53 1024 (b64 49) = true /\
   (B2R (b64 0) < B2R (b64 49))%R /\
   (B2R (b64 0) <= B2R (b64 1) <= B2R (b64 49))%R /\
   (Rabs (B2R (b64 0)) <= pow2 (1024 - 3))%R /\
   (Rabs (B2R (b64 49)) <= pow2 (1024 - 3))%R) /\
  SFsub 53 1024 DBL_MAX (SFopp DBL_MAX) = S754_infinity false /\
  remap5 2%R 1%R 3%R 1%R 3%R = 2%R /\
  (representable 53 1024
     (remap5 (FT := binary64) (b64 1) (b64 0) (b64 49) (b64 0) (b64 49))
   = true /\
   (Rabs (B2R (remap5 (FT := binary64) (b64 1) (b64 0) (b64 49)
                 (b64 0) (b64 49)) - B2R (b64 1))
    <= pow2 (3 - 53) * (B2R (b64 49) - B2R (b64 0))
       + pow2 (- (53)) * Rabs (B2R (b64 1)) + pow2 (emin 53 1024))%R) /\
  remap5 (FT := binary64) (S754_zero false) (SFopp DBL_MAX) DBL_MAX
    (SFopp DBL_MAX) DBL_MAX = S754_nan.
Proof.
  assert (Hne : 1%R <> 3%R) by (apply Rlt_not_eq; lra).
  assert (Hfmt : supported_format 53 1024 = true) by (vm_compute; reflexivity).
  assert (Hprec : (2 <= 53)%Z) by lia.
  assert (Hx : representable 53 1024 (b64 1) = true)
    by (vm_compute; reflexivity).
  assert (Hlo : representable 53 1024 (b64 0) = true)
    by (vm_compute; reflexivity).
  assert (Hhi : representable 53 1024 (b64 49) = true)
    by (vm_compute; reflexivity).
  assert (H0 : B2R (b64 0) = 0%R) by reflexivity.
  assert (Hlt : (B2R (b64 0) < B2R (b64 49))%R)
    by (rewrite H0, B2R_b64_49; lra).
  assert (Hin : (B2R (b64 0) <= B2R (b64 1) <= B2R (b64 49))%R)
    by (rewrite H0, B2R_b64_1, B2R_b64_49; lra).
  assert (Hbig : (49 <= pow2 (1024 - 3))%R).
  { apply Rle_trans with (pow2 6); [|apply pow2_le; lia].
    rewrite <- pow2_IZR by lia. apply IZR_le. vm_compute. discriminate. }
  assert (HML : (Rabs (B2R (b64 0)) <= pow2 (1024 - 3))%R)
    by (rewrite H0, Rabs_R0; lra).
  assert (HMH : (Rabs (B2R (b64 49)) <= pow2 (1024 - 3))%R)
    by (rewrite B2R_b64_49, Rabs_pos_eq; lra).
  assert (Hinf : SFsub 53 1024 DBL_MAX (SFopp DBL_MAX) = S754_infinity false)
    by (vm_compute; reflexivity).
  split; [exact Hne|].
  split; [exact (conj Hfmt (conj Hprec (conj Hx (conj Hlo (conj Hhi
            (conj Hlt (conj Hin (conj HML HMH))))))))|].
  split; [exact Hinf|]. split; [|split].
  - exact (proj1 remap5_same_range 2%R 1%R 3%R Hne).
  - exact (proj1 (proj2 remap5_same_range) 53%Z 1024%Z (b64 1) (b64 0)
             (b64 49) Hfmt Hprec Hx Hlo Hhi Hlt Hin HML HMH).
  - exact (proj2 (proj2 remap5_same_range) 53%Z 1024%Z (S754_zero false)
             (SFopp DBL_MAX) DBL_MAX false Hinf).
Defined.

(** In [double] the round trip is not exact even on small ranges:
    [1 / 49 * 49] is the [double] just below 1. *)
Example remap5_double_inexact :
  remap5 (FT := binary64) (b64 1) (b64 0) (b64 49) (b64 0) (b64 49)
  = S754_finite false (2 ^ 53 - 1) (-53).
Proof. vm_compute. reflexivity. Qed.

(** Near the top of the exponent range the round trip can overflow although
    [hi - lo] is finite: in [double], with [lo = (2^53 - 5) 2^970] and
    [x = hi = DBL_MAX], the last addition rounds to [+inf]. *)
Example remap5_double_overflow_at_top :
  representable 53 1024 (S754_finite false (2 ^ 53 - 5) 970) = true /\
  SFltb (S754_finite false (2 ^ 53 - 5) 970) DBL_MAX = true /\
  is_finite (SFsub 53 1024 DBL_MAX (S754_finite false (2 ^ 53 - 5) 970))
  = true /\
  remap5 (FT := binary64) DBL_MAX (S754_finite false (2 ^ 53 - 5) 970)
    DBL_MAX (S754_finite false (2 ^ 53 - 5) 970) DBL_MAX
  = S754_infinity false.
Proof. vm_compute. repeat split. Qed.

(** In [double], [x = 0] lies in [[-DBL_MAX, DBL_MAX]], the two bounds
    differ, and the remap onto the same range is NaN. *)
Lemma remap5_same_range_double_nan :
  valid_binary 53 1024 (SFopp DBL_MAX) = true /\
  valid_binary 53 1024 DBL_MAX = true /\
  SFleb (SFopp DBL_MAX) (S754_zero false) = true /\
  SFleb (S754_zero false) DBL_MAX = true /\
  SFeqb (SFopp DBL_MAX) DBL_MAX = false /\
  remap5 (FT := binary64) (S754_zero false) (SFopp DBL_MAX) DBL_MAX
    (SFopp DBL_MAX) DBL_MAX = S754_nan /\
  SFeqb (remap5 (FT := binary64) (S754_zero false) (SFopp DBL_MAX) DBL_MAX
           (SFopp DBL_MAX) DBL_MAX)
        (S754_zero false) = false.
Proof. vm_compute. repeat split. Qed.

(** ** Sign of [rms] *)

Lemma Rsum_zero (l : list R) :
  Forall (fun x => x = 0%R) l -> Rsum l = 0%R.
Proof.
  unfold Rsum.
  induction 1 as [|x l Hx _ IH]; cbn [fold_right]; [reflexivity|].
  rewrite Hx, IH. lra.
Qed.

Lemma rms_channels_all_empty_R (data : list (list R)) :
  forallb empty data = true -> rms_channels data = 0%R.
Proof.
  intros He. destruct data as [|c cs]; [reflexivity|].
  rewrite rms_channels_R. unfold Rmean.
  rewrite Rsum_zero.
  - unfold Rdiv. rewrite Rmult_0_l. apply sqrt_0.
  - apply Forall_map, Forall_forall. intros ch Hin.
    rewrite forallb_forall in He. specialize (He ch Hin).
    now destruct ch.
Qed.

Lemma rms_nonneg_R (data : list R) : (0 <= rms data)%R.
Proof.
  destruct data as [|x xs]; [apply Rle_refl|].
  rewrite rms_R. apply sqrt_pos.
Qed.

Lemma rms_channels_nonneg_R (data : list (list R)) :
  (0 <= rms_channels data)%R.
Proof.
  destruct data as [|c cs]; [apply Rle_refl|].
  rewrite rms_channels_R. apply sqrt_pos.
Qed.

Lemma accumulate_from_nan (prec emax : Z) (data : list spec_float) :
  accumulate data S754_nan
    (fun acc next => SFadd prec emax acc (SFmul prec emax next next))
  = S754_nan.
Proof.
  unfold accumulate. induction data as [|x l IH]; [reflexivity|exact IH].
Qed.

(** One NaN sample anywhere makes the single-sequence [rms] NaN. *)
Lemma rms_nan_sample (prec emax : Z) (l r : list spec_float) :
  is_nan (rms (FT := IEEE_FloatType prec emax) (l ++ S754_nan :: r)) = true.
Proof.
  unfold rms.
  replace (empty (l ++ S754_nan :: r)) with false by now destruct l.
  unfold accumulate. rewrite fold_left_app. cbn [fold_left].
  cbn [fadd fmul fdiv fsqrt IEEE_FloatType].
  replace (SFadd prec emax _ (SFmul prec emax S754_nan S754_nan))
    with S754_nan by (now destruct (fold_left _ l _)).
  change (fold_left ?f r S754_nan) with (accumulate r S754_nan f).
  rewrite accumulate_from_nan. reflexivity.
Qed.

(** C8, as the code has it.  Over the reals both [rms] are [>= 0] on every
    input.  In an IEEE format they are [>= 0], and not NaN, on every input
    that holds no NaN (infinities allowed); a NaN sample makes the result
    NaN.  The multichannel [rms] is 0 on an empty outer sequence and when
    every channel is empty. *)
Theorem rms_nonneg :
  ((forall data : list R, (0 <= rms data)%R) /\
   (forall data : list (list R), (0 <= rms_channels data)%R) /\
   (forall data : list (list R),
       forallb empty data = true -> rms_channels data = 0%R)) /\
  (forall prec emax : Z,
      supported_format prec emax = true ->
      (forall data : list spec_float,
          fits_size_t data = true -> nan_free data = true ->
          nonneg (rms (FT := IEEE_FloatType prec emax) data) = true /\
          is_nan (rms (FT := IEEE_FloatType prec emax) data) = false) /\
      (forall data : list (list spec_float),
          channels_ok data = true ->
          nonneg (rms_channels (FT := IEEE_FloatType prec emax) data) = true /\
          is_nan (rms_channels (FT := IEEE_FloatType prec emax) data)
          = false) /\
      (forall data : list (list spec_float),
          fits_size_t data = true -> forallb empty data = true ->
          rms_channels (FT := IEEE_FloatType prec emax) data
          = S754_zero false)) /\
  (forall (prec emax : Z) (l r : list spec_float),
      is_nan (rms (FT := IEEE_FloatType prec emax) (l ++ S754_nan :: r))
      = true).
Proof.
  split; [|split].
  - split; [exact rms_nonneg_R|].
    split; [exact rms_channels_nonneg_R | exact rms_channels_all_empty_R].
  - intros prec emax Hfmt. split; [|split].
    + intros data Hfit Hnan. apply signed_nonneg.
      now apply rms_signed.
    + intros data Hok. apply signed_nonneg.
      now apply rms_channels_signed.
    + intros data Hfit He. now apply rms_channels_all_empty.
  - intros prec emax l r. apply rms_nan_sample.
Qed.

Lemma rms_nonneg_witness :
  supported_format 53 1024 = true /\
  fits_size_t [b64 3; b64 4] = true /\
  nan_free [b64 3; b64 4] = true /\
  nonneg (rms (FT := binary64) [b64 3; b64 4]) = true /\
  channels_ok [[b64 1; S754_infinity true]; []] = true /\
  nonneg (rms_channels (FT := binary64) [[b64 1; S754_infinity true]; []])
  = true /\
  forallb empty [@nil R; []] = true /\
  rms_channels [@nil R; []] = 0%R.
Proof.
  assert (Hfmt : supported_format 53 1024 = true) by reflexivity.
  assert (Hfit : fits_size_t [b64 3; b64 4] = true) by reflexivity.
  assert (Hnan : nan_free [b64 3; b64 4] = true) by reflexivity.
  assert (Hok : channels_ok [[b64 1; S754_infinity true]; []] = true)
    by reflexivity.
  assert (He : forallb empty [@nil R; []] = true) by reflexivity.
  destruct rms_nonneg as [[_ [_ HR]] [HF _]].
  destruct (HF 53%Z 1024%Z Hfmt) as [H1 [H2 _]].
  split; [exact Hfmt|]. split; [exact Hfit|]. split; [exact Hnan|].
  split; [exact (proj1 (H1 _ Hfit Hnan))|].
  split; [exact Hok|].
  split; [exact (proj1 (H2 _ Hok))|].
  split; [exact He|].
  exact (HR _ He).
Defined.

(** In [double], the [rms] of the one-sample sequence [NaN] is NaN, which is
    not [>= 0]; so is the multichannel [rms] of that one channel. *)
Lemma rms_nan_not_nonneg :
  rms (FT := binary64) [S754_nan] = S754_nan /\
  nonneg (rms (FT := binary64) [S754_nan]) = false /\
  nonneg (rms_channels (FT := binary64) [[S754_nan]]) = false.
Proof. vm_compute. repeat split. Qed.

(** ** More on [lerp] and [remap], exact arithmetic *)

Section InterpolationFacts.
Local Open Scope R_scope.







End InterpolationFacts.

(** ** [lerp] and [remap] at the edges of IEEE arithmetic *)

Section InterpolationIEEE.
Local Open Scope Z_scope.
Variables prec emax : Z.
Local Abbreviation F := (IEEE_FloatType prec emax).

(** [x - x] is the positive zero for a finite [x] and NaN otherwise. *)
Lemma SFsub_diag (x : spec_float) :
  SFsub prec emax x x = if is_finite x then S754_zero false else S754_nan.
Proof.
  destruct x as [s|s| |s m e]; try reflexivity; try (now destruct s).
  cbn [SFsub is_finite]. now rewrite Z.sub_diag.
Qed.

Lemma SFdiv_zero_not_finite (a : spec_float) (s : bool) :
  is_finite (SFdiv prec emax a (S754_zero s)) = false.
Proof. now destruct a. Qed.

Lemma SFmul_not_finite (a b : spec_float) :
  is_finite a = false -> is_finite (SFmul prec emax a b) = false.
Proof. destruct a, b; cbn; congruence. Qed.

Lemma SFadd_not_finite (a b : spec_float) :
  is_finite a = false -> is_finite (SFadd prec emax a b) = false.
Proof.
  destruct a as [sa|sa| |sa ma ea], b as [sb|sb| |sb mb eb];
    cbn; try congruence; now destruct sa, sb.
Qed.

(** A degenerate source range, [srcMin == srcMax], never gives a finite
    number: the division is not guarded, and the result is an infinity or
    NaN for every [x] and every new range. *)
Theorem remap5_degenerate_range :
  forall x src newMin newMax : spec_float,
    is_finite (remap5 (FT := F) x src src newMin newMax) = false.
Proof.
  intros x src newMin newMax. unfold remap5, remap.
  cbn [fsub fdiv fmul fadd IEEE_FloatType].
  apply SFadd_not_finite, SFmul_not_finite.
  rewrite (SFsub_diag src).
  destruct (is_finite src).
  - apply SFdiv_zero_not_finite.
  - now destruct (SFsub prec emax x src).
Qed.

(** Interpolating between a finite non-zero value and itself gives that value
    exactly for every finite ratio, and NaN for an infinite or NaN ratio;
    between an infinity and itself it gives NaN. *)
Theorem lerp_same_endpoints :
  forall (s : bool) (m : positive) (e : Z) (ratio : spec_float),
    lerp (FT := F) (S754_finite s m e) (S754_finite s m e) ratio
    = (if is_finite ratio then S754_finite s m e else S754_nan) /\
    lerp (FT := F) (S754_infinity s) (S754_infinity s) ratio = S754_nan.
Proof.
  intros s m e ratio. unfold lerp.
  cbn [fsub fmul fadd IEEE_FloatType]. rewrite !SFsub_diag.
  split; [|now destruct s].
  cbn [is_finite]. now destruct ratio.
Qed.

(** At ratio 0, [lerp] returns a finite non-zero [start] exactly, and so does
    [remap] at [x = 0], unless [end - start] overflows or is NaN: then
    [0 * (end - start)] is NaN and so is the result. *)
Theorem lerp_remap_at_zero :
  forall (s : bool) (m : positive) (e : Z) (end_ : spec_float) (z : bool),
    lerp (FT := F) (S754_finite s m e) end_ (S754_zero z)
    = (if is_finite (SFsub prec emax end_ (S754_finite s m e))
       then S754_finite s m e else S754_nan) /\
    remap (FT := F) (S754_zero z) (S754_finite s m e) end_
    = lerp (FT := F) (S754_finite s m e) end_ (S754_zero z).
Proof.
  intros s m e end_ z. split.
  - unfold lerp. cbn [fsub fmul fadd IEEE_FloatType].
    now destruct (SFsub prec emax end_ (S754_finite s m e)).
  - apply (@remap_lerp_comm _ _ (IEEE_FloatComm prec emax)).
Qed.

End InterpolationIEEE.

(** ** [rms] as a function of its samples, exact arithmetic *)

Section RmsFacts.
Local Open Scope R_scope.

Local Abbreviation sq := (fun x : R => x * x).
















End RmsFacts.

(** ** The multichannel [rms] and the per-channel [rms], exact arithmetic *)

Section RmsChannelsFacts.
Local Open Scope R_scope.

Local Abbreviation sq := (fun x : R => x * x).







(** Channels of different lengths weigh the same: the multichannel [rms] is
    then not the [rms] of the samples taken together. *)
Example rms_channels_unequal_lengths :
  rms_channels [[2]; [0; 0; 0]] = sqrt 2 /\ rms [2; 0; 0; 0] = 1.
Proof.
  split.
  - rewrite rms_channels_R. f_equal.
    unfold Rmean, Rmean_square, Rmean, Rsum.
    cbn [map fold_right length INR]. lra.
  - rewrite rms_R. unfold Rmean, Rsum. cbn [map fold_right length INR].
    replace ((2 * 2 + (0 * 0 + (0 * 0 + (0 * 0 + 0)))) / (1 + 1 + 1 + 1))
      with 1 by lra.
    apply sqrt_1.
Qed.

End RmsChannelsFacts.

(** ** NaN and infinite samples in IEEE arithmetic *)

Section RmsSpecialValues.
Local Open Scope Z_scope.
Variables prec emax : Z.
Hypothesis format_ok : supported_format prec emax = true.
Local Abbreviation F := (IEEE_FloatType prec emax).
Local Abbreviation sum_sq :=
  (fun acc next => SFadd prec emax acc (SFmul prec emax next next)).
Local Abbreviation sum_means :=
  (fun acc next => SFadd prec emax acc (getChannelMean (FT := F) next)).

Lemma nan_free_false_split (data : list spec_float) :
  nan_free data = false -> exists l r, data = l ++ S754_nan :: r.
Proof.
  induction data as [|x xs IH]; cbn; [discriminate|].
  destruct x as [s|s| |s m e]; cbn; intros H;
    try (destruct (IH H) as (l & r & ->); eexists (_ :: l), r; reflexivity).
  now exists [], xs.
Qed.

Lemma getChannelMean_nan (channel : list spec_float) :
  nan_free channel = false -> getChannelMean (FT := F) channel = S754_nan.
Proof.
  intros H. destruct (nan_free_false_split _ H) as (l & r & ->).
  unfold getChannelMean.
  replace (empty (l ++ S754_nan :: r)) with false by now destruct l.
  unfold accumulate. rewrite fold_left_app. cbn [fold_left].
  cbn [fadd fmul fdiv fzero IEEE_FloatType].
  replace (SFadd prec emax _ (SFmul prec emax S754_nan S754_nan))
    with S754_nan by (now destruct (fold_left _ l _)).
  change (fold_left ?f r S754_nan) with (accumulate r S754_nan f).
  now rewrite accumulate_from_nan.
Qed.

Lemma accumulate_means_from_nan (data : list (list spec_float)) :
  accumulate data S754_nan sum_means = S754_nan.
Proof.
  unfold accumulate. induction data as [|c l IH]; [reflexivity|exact IH].
Qed.

Lemma accumulate_means_nan (data : list (list spec_float)) :
  forallb nan_free data = false ->
  forall a, accumulate data a sum_means = S754_nan.
Proof.
  unfold accumulate.
  induction data as [|c l IH]; cbn [forallb fold_left]; [discriminate|].
  intros H a. destruct (nan_free c) eqn:Hc.
  - now apply IH.
  - rewrite (getChannelMean_nan _ Hc).
    replace (SFadd prec emax a S754_nan) with S754_nan by now destruct a.
    apply accumulate_means_from_nan.
Qed.

(** The multichannel [rms] is NaN exactly when some channel holds a NaN
    sample. *)
Theorem rms_channels_nan_iff :
  forall data : list (list spec_float),
    fits_size_t data = true ->
    forallb fits_size_t data = true ->
    is_nan (rms_channels (FT := F) data) = negb (forallb nan_free data).
Proof.
  intros data Hfit Hfits.
  destruct (forallb nan_free data) eqn:Hnan; cbn [negb].
  - apply signed_nonneg, rms_channels_signed; [assumption|].
    unfold channels_ok. rewrite Hfit. cbn [andb].
    rewrite forallb_forall in *. intros c Hc.
    now rewrite (Hfits c Hc), (Hnan c Hc).
  - unfold rms_channels.
    destruct data as [|c l]; [discriminate|]. cbn [empty].
    cbn [fadd fdiv fsqrt fzero IEEE_FloatType].
    now rewrite (accumulate_means_nan _ Hnan).
Qed.

Lemma accumulate_squares_from_inf (data : list spec_float) :
  nan_free data = true ->
  accumulate data (S754_infinity false) sum_sq = S754_infinity false.
Proof.
  unfold accumulate.
  unfold nan_free.
  induction data as [|x l IH]; cbn [fold_left forallb]; [reflexivity|].
  intros H. apply andb_prop in H as [Hx Hl].
  assert (Hs : signed false (SFmul prec emax x x))
    by (apply SFmul_square_signed; now destruct (is_nan x)).
  replace (SFadd prec emax (S754_infinity false) (SFmul prec emax x x))
    with (S754_infinity false); [now apply IH|].
  destruct (SFmul prec emax x x) as [s|s| |s m e]; cbn in Hs; subst;
    try reflexivity; tauto.
Qed.

Lemma accumulate_squares_inf (data : list spec_float) :
  nan_free data = true -> existsb is_infinity data = true ->
  forall a, signed false a ->
  accumulate data a sum_sq = S754_infinity false.
Proof.
  induction data as [|x l IH]; cbn [existsb]; [discriminate|].
  intros Hnan Hinf a Ha.
  assert (Hx : is_nan x = false /\ nan_free l = true).
  { cbn in Hnan. apply andb_prop in Hnan as [Hx Hl].
    split; [now destruct (is_nan x) | assumption]. }
  destruct Hx as [Hx Hl].
  change (accumulate (x :: l) a sum_sq)
    with (accumulate l (SFadd prec emax a (SFmul prec emax x x)) sum_sq).
  destruct (is_infinity x) eqn:Ex.
  - destruct x as [s|s| |s m e]; try discriminate.
    replace (SFadd prec emax a (SFmul prec emax (S754_infinity s)
                                   (S754_infinity s)))
      with (S754_infinity false).
    + now apply accumulate_squares_from_inf.
    + cbn [SFmul]. rewrite xorb_nilpotent.
      destruct a as [sa|sa| |sa ma ea]; cbn in Ha; subst;
        try reflexivity; tauto.
  - apply IH; try assumption.
    apply SFadd_signed; [assumption|]. now apply SFmul_square_signed.
Qed.

(** With an infinite sample and no NaN, the single-sequence [rms] is
    [+infinity]. *)
Theorem rms_infinite_sample :
  forall data : list spec_float,
    fits_size_t data = true ->
    nan_free data = true ->
    existsb is_infinity data = true ->
    rms (FT := F) data = S754_infinity false.
Proof.
  intros data Hfit Hnan Hinf.
  destruct data as [|x l]; [discriminate|].
  unfold rms. cbn [empty].
  destruct (@of_size_finite prec emax format_ok _ x l Hfit) as (m & e & Hn).
  cbn [fadd fmul fdiv fsqrt fzero of_size IEEE_FloatType] in *.
  rewrite Hn, accumulate_squares_inf by (assumption || reflexivity).
  reflexivity.
Qed.

End RmsSpecialValues.

Lemma rms_channels_nan_iff_witness :
  supported_format 53 1024 = true /\
  fits_size_t [[b64 1]; [S754_nan; b64 2]] = true /\
  forallb fits_size_t [[b64 1]; [S754_nan; b64 2]] = true /\
  is_nan (rms_channels (FT := binary64) [[b64 1]; [S754_nan; b64 2]])
  = negb (forallb nan_free [[b64 1]; [S754_nan; b64 2]]).
Proof.
  assert (Hf : supported_format 53 1024 = true) by reflexivity.
  assert (H1 : fits_size_t [[b64 1]; [S754_nan; b64 2]] = true)
    by reflexivity.
  assert (H2 : forallb fits_size_t [[b64 1]; [S754_nan; b64 2]] = true)
    by reflexivity.
  split; [exact Hf|]. split; [exact H1|]. split; [exact H2|].
  exact (@rms_channels_nan_iff 53 1024 Hf _ H1 H2).
Defined.

Lemma rms_infinite_sample_witness :
  supported_format 53 1024 = true /\
  fits_size_t [b64 1; S754_infinity true] = true /\
  nan_free [b64 1; S754_infinity true] = true /\
  existsb is_infinity [b64 1; S754_infinity true] = true /\
  rms (FT := binary64) [b64 1; S754_infinity true] = S754_infinity false.
Proof.
  assert (Hf : supported_format 53 1024 = true) by reflexivity.
  assert (H1 : fits_size_t [b64 1; S754_infinity true] = true) by reflexivity.
  assert (H2 : nan_free [b64 1; S754_infinity true] = true) by reflexivity.
  assert (H3 : existsb is_infinity [b64 1; S754_infinity true] = true)
    by reflexivity.
  split; [exact Hf|]. split; [exact H1|]. split; [exact H2|].
  split; [exact H3|].
  exact (@rms_infinite_sample 53 1024 Hf _ H1 H2 H3).
Defined.

(** ** The shape of [sinc], exact arithmetic *)

Section SincFacts.
Local Open Scope R_scope.

Local Abbreviation eps := (1 / 1000000).









End SincFacts.

(** ** More on the views *)

Section MoreViewFacts.
Import View.
Local Open Scope Z_scope.
Variable T : Type.
Variable sizeof_T : Z.
Hypothesis sizeof_pos : 0 < sizeof_T.

(** A view made by [complexViewToInterleaved] always passes the assertion of
    [interleavedToComplexView], in a debug build too, and converts back to
    the descriptor it was made from. *)
Theorem complex_view_round_trip :
  forall (NDEBUG : bool) (c : span Complex),
    in_memory sizeof_T c ->
    interleavedToComplexView NDEBUG (complexViewToInterleaved c) = Some c.
Proof.
  intros NDEBUG [base n] Hc.
  pose proof (in_memory_double sizeof_pos Hc) as Hn. cbn [size] in Hn.
  unfold interleavedToComplexView, complexViewToInterleaved.
  cbn [size data]. rewrite wrap_small by assumption.
  rewrite Z.mod_mul, Z.div_mul by lia.
  now rewrite orb_true_r.
Qed.

(** In a release build an odd count is neither refused nor kept: the complex
    view covers the first [N - 1] reals, and converting it back gives a view
    one element shorter than the original. *)
Theorem odd_length_drops_last :
  forall d : span Real,
    0 <= size d < size_modulus ->
    size d mod 2 = 1 ->
    exists v : span Complex,
      interleavedToComplexView true d = Some v /\
      size v * 2 = size d - 1 /\
      complexViewToInterleaved v = {| data := data d; size := size d - 1 |}.
Proof.
  intros [base n] Hn Hodd. cbn [size] in *.
  exists {| data := base; size := n / 2 |}.
  pose proof (Z.div_mod n 2 ltac:(lia)) as Hdm.
  split; [reflexivity|]. split; [cbn [size]; lia|].
  unfold complexViewToInterleaved. cbn [size data].
  rewrite wrap_small by lia. f_equal. lia.
Qed.

(** Neither conversion reaches outside the buffer it was given: the view
    starts where the buffer starts and ends no later. *)
Theorem views_stay_in_buffer :
  forall (NDEBUG : bool) (d : span Real) (v : span Complex)
         (c : span Complex),
    (in_memory sizeof_T d ->
     interleavedToComplexView NDEBUG d = Some v ->
     in_memory sizeof_T v /\
     data v = data d /\
     data v + size v * sizeof sizeof_T Complex
     <= data d + size d * sizeof sizeof_T Real) /\
    (in_memory sizeof_T c ->
     in_memory sizeof_T (complexViewToInterleaved c) /\
     data (complexViewToInterleaved c) = data c /\
     data (complexViewToInterleaved c)
     + size (complexViewToInterleaved c) * sizeof sizeof_T Real
     = data c + size c * sizeof sizeof_T Complex).
Proof.
  intros NDEBUG d v c. split.
  - intros (Hd0 & Hn & Hend) Hv. unfold interleavedToComplexView in Hv.
    destruct (NDEBUG || (size d mod 2 =? 0)); [|discriminate].
    injection Hv as <-. unfold in_memory, sizeof in *. cbn [data size].
    pose proof (Z.div_mod (size d) 2 ltac:(lia)) as Hdm.
    pose proof (Z.mod_pos_bound (size d) 2 ltac:(lia)) as Hr.
    assert (0 <= size d / 2) by (apply Z.div_pos; lia).
    assert (size d / 2 * (2 * sizeof_T) <= size d * sizeof_T) by nia.
    repeat split; lia.
  - intros Hc. pose proof (in_memory_double sizeof_pos Hc) as Hn.
    destruct Hc as (Hd0 & Hm & Hend).
    unfold in_memory, complexViewToInterleaved, sizeof in *.
    cbn [data size]. rewrite wrap_small by assumption.
    repeat split; lia.
Qed.

(** On an even count the two views hold the same values: the reals are the
    real and imaginary parts of the complexes, in order. *)
Theorem views_read_same_values :
  forall (NDEBUG : bool) (m : memory T) (d : span Real),
    0 <= size d < size_modulus ->
    size d mod 2 = 0 ->
    exists v : span Complex,
      interleavedToComplexView NDEBUG d = Some v /\
      read_real sizeof_T m d
      = flat_map (fun z => [fst z; snd z]) (read_complex sizeof_T m v).
Proof.
  intros NDEBUG m [base n] Hn Heven. cbn [size] in *.
  exists {| data := base; size := n / 2 |}. split.
  - unfold interleavedToComplexView. cbn [size data].
    now rewrite Heven, orb_true_r.
  - rewrite <- read_interleaved.
    + unfold complexViewToInterleaved. cbn [size data].
      now rewrite (even_halves n Heven), wrap_small.
    + cbn [size]. rewrite (even_halves n Heven). assumption.
Qed.

Lemma address_eqb (base i j : Z) :
  (base + j * sizeof_T =? base + i * sizeof_T) = (j =? i).
Proof.
  destruct (Z.eqb_spec j i) as [->|Hne].
  - apply Z.eqb_refl.
  - apply Z.eqb_neq. nia.
Qed.

Lemma complex_write_seen_through_reals :
  forall (m : memory T) (c : span Complex) (i j : Z) (z : T * T),
    real_at sizeof_T (write_complex sizeof_T m c i z)
      (complexViewToInterleaved c) j
    = if j =? 2 * i then fst z
      else if j =? 2 * i + 1 then snd z
      else real_at sizeof_T m (complexViewToInterleaved c) j.
Proof.
  intros m c i j z.
  unfold real_at, write_complex, store, complexViewToInterleaved, sizeof.
  cbn [data].
  replace (data c + i * (2 * sizeof_T) + sizeof_T)
    with (data c + (2 * i + 1) * sizeof_T) by ring.
  replace (data c + i * (2 * sizeof_T))
    with (data c + (2 * i) * sizeof_T) by ring.
  rewrite !address_eqb.
  destruct (Z.eqb_spec j (2 * i + 1)) as [E1|H1];
    destruct (Z.eqb_spec j (2 * i)) as [E0|H0]; try reflexivity; lia.
Qed.

Lemma real_write_seen_through_complexes :
  forall (m : memory T) (c : span Complex) (i j : Z) (x : T),
    complex_at sizeof_T
      (write_real sizeof_T m (complexViewToInterleaved c) j x) c i
    = if j =? 2 * i then (x, snd (complex_at sizeof_T m c i))
      else if j =? 2 * i + 1 then (fst (complex_at sizeof_T m c i), x)
      else complex_at sizeof_T m c i.
Proof.
  intros m c i j x.
  unfold complex_at, write_real, store, complexViewToInterleaved, sizeof.
  cbn [data fst snd].
  replace (data c + i * (2 * sizeof_T) + sizeof_T)
    with (data c + (2 * i + 1) * sizeof_T) by ring.
  replace (data c + i * (2 * sizeof_T))
    with (data c + (2 * i) * sizeof_T) by ring.
  rewrite !address_eqb.
  rewrite (Z.eqb_sym (2 * i) j), (Z.eqb_sym (2 * i + 1) j).
  destruct (Z.eqb_spec j (2 * i)) as [E0|H0];
    destruct (Z.eqb_spec j (2 * i + 1)) as [E1|H1]; try reflexivity; lia.
Qed.

(** The views alias.  An element assigned through the complex view is read
    back through the view of reals, real part at [2 i] and imaginary part at
    [2 i + 1], and no other real changes; a real assigned through the view of
    reals is the real or the imaginary part of the complex element that
    holds it, and no other complex changes. *)
Theorem views_alias :
  forall (m : memory T) (c : span Complex) (i j : Z) (z : T * T) (x : T),
    real_at sizeof_T (write_complex sizeof_T m c i z)
      (complexViewToInterleaved c) j
    = (if j =? 2 * i then fst z
       else if j =? 2 * i + 1 then snd z
       else real_at sizeof_T m (complexViewToInterleaved c) j) /\
    complex_at sizeof_T
      (write_real sizeof_T m (complexViewToInterleaved c) j x) c i
    = (if j =? 2 * i then (x, snd (complex_at sizeof_T m c i))
       else if j =? 2 * i + 1 then (fst (complex_at sizeof_T m c i), x)
       else complex_at sizeof_T m c i).
Proof.
  intros m c i j z x. split.
  - apply complex_write_seen_through_reals.
  - apply real_write_seen_through_complexes.
Qed.

End MoreViewFacts.

Section MoreViewWitnesses.
Import View.
Local Open Scope Z_scope.

Lemma complex_view_round_trip_witness :
  0 < 8 /\
  @in_memory 8 Complex {| data := 4096; size := 3 |} /\
  interleavedToComplexView false
    (complexViewToInterleaved {| data := 4096; size := 3 |})
  = Some {| data := 4096; size := 3 |}.
Proof.
  assert (H8 : 0 < 8) by reflexivity.
  assert (Hm : @in_memory 8 Complex {| data := 4096; size := 3 |})
    by (unfold in_memory; cbn; repeat split; discriminate).
  split; [exact H8|]. split; [exact Hm|].
  exact (@complex_view_round_trip 8 H8 false _ Hm).
Defined.

Lemma odd_length_drops_last_witness :
  0 <= 7 < size_modulus /\ 7 mod 2 = 1 /\
  exists v : span Complex,
    interleavedToComplexView true {| data := 4096; size := 7 |} = Some v /\
    size v * 2 = 7 - 1 /\
    complexViewToInterleaved v = {| data := 4096; size := 7 - 1 |}.
Proof.
  assert (Hn : 0 <= 7 < size_modulus) by (split; [discriminate|reflexivity]).
  split; [exact Hn|]. split; [reflexivity|].
  exact (@odd_length_drops_last {| data := 4096; size := 7 |} Hn eq_refl).
Defined.

Lemma views_stay_in_buffer_witness :
  0 < 8 /\
  @in_memory 8 Real {| data := 4096; size := 7 |} /\
  interleavedToComplexView true {| data := 4096; size := 7 |}
  = Some {| data := 4096; size := 3 |} /\
  @in_memory 8 Complex {| data := 4096; size := 3 |} /\
  @in_memory 8 Real (complexViewToInterleaved {| data := 4096; size := 3 |}).
Proof.
  assert (H8 : 0 < 8) by reflexivity.
  assert (Hd : @in_memory 8 Real {| data := 4096; size := 7 |})
    by (unfold in_memory; cbn; repeat split; discriminate).
  assert (Hv : interleavedToComplexView true {| data := 4096; size := 7 |}
               = Some {| data := 4096; size := 3 |}) by reflexivity.
  destruct (@views_stay_in_buffer 8 H8 true {| data := 4096; size := 7 |}
              {| data := 4096; size := 3 |} {| data := 4096; size := 3 |})
    as [Hto Hfrom].
  pose proof (proj1 (Hto Hd Hv)) as Hc.
  split; [exact H8|]. split; [exact Hd|]. split; [exact Hv|].
  split; [exact Hc|]. exact (proj1 (Hfrom Hc)).
Defined.

Lemma views_read_same_values_witness :
  0 <= 4 < size_modulus /\ 4 mod 2 = 0 /\
  forall m : memory R,
  exists v : span Complex,
    interleavedToComplexView false {| data := 4096; size := 4 |} = Some v /\
    read_real 8 m {| data := 4096; size := 4 |}
    = flat_map (fun z => [fst z; snd z]) (read_complex 8 m v).
Proof.
  assert (Hn : 0 <= 4 < size_modulus) by (split; [discriminate|reflexivity]).
  split; [exact Hn|]. split; [reflexivity|].
  intros m.
  exact (@views_read_same_values R 8 false m {| data := 4096; size := 4 |}
           Hn eq_refl).
Defined.

Lemma views_alias_witness :
  0 < 8 /\
  forall (m : memory R),
    real_at 8 (write_complex 8 m {| data := 4096; size := 3 |} 1 (5, 6)%R)
      (complexViewToInterleaved {| data := 4096; size := 3 |}) 3
    = 6%R.
Proof.
  assert (H8 : 0 < 8) by reflexivity.
  split; [exact H8|]. intros m.
  exact (proj1 (@views_alias R 8 H8 m {| data := 4096; size := 3 |} 1 3
                  (5, 6)%R 0%R)).
Defined.

End MoreViewWitnesses.

(** ** Order and silence, exact arithmetic *)

From Stdlib Require Import Permutation.

Section RmsOrderFacts.
Local Open Scope R_scope.

Local Abbreviation sq := (fun x : R => x * x).







End RmsOrderFacts.

(** ** Silence in IEEE arithmetic *)

Section RmsSilence.
Local Open Scope Z_scope.
Variables prec emax : Z.
Hypothesis format_ok : supported_format prec emax = true.
Local Abbreviation F := (IEEE_FloatType prec emax).

Lemma accumulate_zeros (data : list spec_float) :
  forallb is_zero data = true ->
  accumulate data (S754_zero false)
    (fun acc next => SFadd prec emax acc (SFmul prec emax next next))
  = S754_zero false.
Proof.
  unfold accumulate.
  induction data as [|x l IH]; cbn [forallb fold_left]; [reflexivity|].
  intros H. apply andb_prop in H as [Hx Hl].
  destruct x as [s|s| |s m e]; try discriminate.
  cbn [SFmul]. rewrite xorb_nilpotent. now apply IH.
Qed.

(** Silence has [rms] exactly [+0], whatever the signs of its zeros. *)
Theorem rms_silence :
  forall data : list spec_float,
    fits_size_t data = true ->
    forallb is_zero data = true ->
    rms (FT := F) data = S754_zero false.
Proof.
  intros data Hfit Hz. destruct data as [|x l]; [reflexivity|].
  unfold rms. cbn [empty].
  destruct (@of_size_finite prec emax format_ok _ x l Hfit) as (m & e & Hn).
  cbn [fadd fmul fdiv fsqrt fzero of_size IEEE_FloatType] in *.
  now rewrite Hn, accumulate_zeros.
Qed.

End RmsSilence.

Lemma rms_silence_witness :
  supported_format 53 1024 = true /\
  fits_size_t [S754_zero true; S754_zero false] = true /\
  forallb is_zero [S754_zero true; S754_zero false] = true /\
  rms (FT := binary64) [S754_zero true; S754_zero false] = S754_zero false.
Proof.
  assert (Hf : supported_format 53 1024 = true) by reflexivity.
  assert (H1 : fits_size_t [S754_zero true; S754_zero false] = true)
    by reflexivity.
  assert (H2 : forallb is_zero [S754_zero true; S754_zero false] = true)
    by reflexivity.
  split; [exact Hf|]. split; [exact H1|]. split; [exact H2|].
  exact (@rms_silence 53 1024 Hf _ H1 H2).
Defined.

(** The converse fails in [double]: the square of a small sample underflows,
    and a signal that is not silent has [rms] 0. *)
Example rms_underflow :
  rms (FT := binary64) [S754_finite false (2 ^ 52) (-600 - 52)]
  = S754_zero false.
Proof. vm_compute. reflexivity. Qed.
